(** * go-steg: steganographic encoding of messages in PNG images

    A shallow embedding of package [steg] and the properties its
    specification states about it.

    The repository holds two versions of the package.  The documented one
    (package comment with the usage example, zero-length check in [Encode],
    [[8]bool] bit buffers) is embedded in module [Steg]; the older copy under
    [steg/steg.go] ([[]byte] bit buffers, no zero-length check, [>=] in
    [before]) is embedded in module [Legacy].  Functions that are the same
    text in both files ([inBounds], [offsetFromMin], [pointAtOffset], [pow])
    are embedded once, before the two modules.

    Go's [int] and [uint] are taken to be 64 bits wide; every arithmetic
    operation of the source is written with its wrap-around. *)

From Stdlib Require Import ZArith List Lia Bool String Ascii PreOmega.
Import ListNotations.
Local Open Scope Z_scope.

(** ** Machine integers *)

Module GoInt.

(** [uint]: 64-bit, arithmetic modulo 2^64. *)
Definition uint (z : Z) : Z := z mod 2 ^ 64.

(** [int]: 64-bit two's complement. *)
Definition int (z : Z) : Z := (z + 2 ^ 63) mod 2 ^ 64 - 2 ^ 63.

(** [uint32(z)], [uint8(z)] and [byte(z)]: truncating conversions. *)
Definition uint32 (z : Z) : Z := z mod 2 ^ 32.
Definition uint8 (z : Z) : Z := z mod 2 ^ 8.
Definition byte (z : Z) : Z := z mod 2 ^ 8.

(** [^b] on a byte: bitwise complement within 8 bits. *)
Definition byte_not (b : Z) : Z := 255 - b.

Definition int_add (a b : Z) : Z := int (a + b).
Definition int_sub (a b : Z) : Z := int (a - b).
Definition int_mul (a b : Z) : Z := int (a * b).

(** Integer division truncates toward zero and panics on a zero divisor
    ([None]). *)
Definition int_div (a b : Z) : option Z :=
  if b =? 0 then None else Some (int (Z.quot a b)).

Definition uint_add (a b : Z) : Z := uint (a + b).
Definition uint_sub (a b : Z) : Z := uint (a - b).
Definition uint_mul (a b : Z) : Z := uint (a * b).

Definition byte_add (a b : Z) : Z := byte (a + b).
Definition byte_sub (a b : Z) : Z := byte (a - b).

Definition is_int (z : Z) : Prop := - 2 ^ 63 <= z < 2 ^ 63.
Definition is_byte (z : Z) : Prop := 0 <= z < 256.

End GoInt.
Import GoInt.

(** ** Data *)

(** [steg.Point]; [image.Point] has the same two [int] fields and is
    modelled by the same record. *)
Record Point : Type := mkPoint { X : Z; Y : Z }.

(** [image.Rectangle]. *)
Record Rectangle : Type := mkRect { Min : Point; Max : Point }.

(** The zero value of [Point] (an unassigned named result). *)
Definition zeroPoint : Point := mkPoint 0 0.

(** [color.RGBA]: four [uint8] samples. *)
Record color_RGBA : Type := mkRGBA { R : Z; G : Z; B : Z; A : Z }.

Definition zeroRGBA : color_RGBA := mkRGBA 0 0 0 0.

Definition is_color (c : color_RGBA) : Prop :=
  is_byte (R c) /\ is_byte (G c) /\ is_byte (B c) /\ is_byte (A c).

(** [color.RGBA.RGBA()]: each 8-bit sample widened to 16 bits
    ([r = uint32(c.R); r |= r << 8]). *)
Definition widen (v : Z) : Z := Z.lor (uint32 v) (uint32 (Z.shiftl (uint32 v) 8)).

Definition RGBA_RGBA (c : color_RGBA) : Z * Z * Z * Z :=
  (widen (R c), widen (G c), widen (B c), widen (A c)).

(** [image.RGBA] behind its pointer: the pixel store and its rectangle.
    The byte slice [Pix] with its stride is abstracted to a function of the
    coordinate. *)
Record image_RGBA : Type := mkImage { Pix : Z -> Z -> color_RGBA; Rect : Rectangle }.

Definition Bounds (m : image_RGBA) : Rectangle := Rect m.

(** [image.Point.In(r)]. *)
Definition point_In (x y : Z) (r : Rectangle) : bool :=
  (X (Min r) <=? x) && (x <? X (Max r)) && (Y (Min r) <=? y) && (y <? Y (Max r)).

(** The [At] method of [image.RGBA]: the zero colour outside the rectangle. *)
Definition At (m : image_RGBA) (x y : Z) : color_RGBA :=
  if point_In x y (Rect m) then Pix m x y else zeroRGBA.

(** The [Set] method of [image.RGBA]: no effect outside the rectangle. *)
Definition Set_ (m : image_RGBA) (x y : Z) (c : color_RGBA) : image_RGBA :=
  if point_In x y (Rect m)
  then mkImage (fun x' y' => if (x' =? x) && (y' =? y) then c else Pix m x' y') (Rect m)
  else m.

(** Go strings are byte sequences: [string] of 8-bit [ascii]. *)
Definition len (s : string) : Z := Z.of_nat (String.length s).

Definition byte_of_ascii (a : ascii) : Z := Z.of_N (N_of_ascii a).
Definition ascii_of_byte (b : Z) : ascii := ascii_of_N (Z.to_N (byte b)).

(** [s[k]] for an unsigned index [k]: a byte, or a run-time panic ([None])
    when [k >= len(s)]. *)
Definition index (s : string) (k : Z) : option Z :=
  if (0 <=? k) && (k <? len s)
  then option_map byte_of_ascii (String.get (Z.to_nat k) s)
  else None.

(** [string(n)] for a byte [n]: the UTF-8 encoding of the code point [n]
    (one byte below 0x80, two bytes from 0x80 to 0xFF). *)
Definition string_of_byte (n : Z) : string :=
  if n <? 128
  then String (ascii_of_byte n) EmptyString
  else String (ascii_of_byte (Z.lor 192 (Z.shiftr n 6)))
         (String (ascii_of_byte (Z.lor 128 (Z.land n 63))) EmptyString).

(** ** Functions shared by both versions *)

(** [pow(x, y) = int(math.Pow(float64(x), float64(y)))].  The package calls it
    with [x = 2] and [y] in [0..7] only, where the floating-point power is
    the exact integer power. *)
Definition pow (x y : Z) : Z := x ^ y.

Definition inBounds (r : Rectangle) (p : Point) : bool :=
  if X p <? X (Min r) then false
  else if Y p <? Y (Min r) then false
  else if X p >=? X (Max r) then false
  else if Y p >=? Y (Max r) then false
  else true.

Definition offsetFromMin (r : Rectangle) (p : Point) : Z :=
  let width := uint_sub (uint (X (Max r))) (uint (X (Min r))) in
  uint_add (uint_mul (uint (Y p)) (uint width)) (uint (X p)).

(** [None] is the division panic of [offset / width] on a rectangle of
    width zero. *)
Definition pointAtOffset (r : Rectangle) (p : Point) (offset : Z) : option Point :=
  let width := int_sub (X (Max r)) (X (Min r)) in
  match int_div offset width with
  | None => None
  | Some rows =>
      let py := int_add (Y p) rows in
      let offset := int_sub offset (int_mul rows width) in
      if int_add (X p) offset >? X (Max r)
      then
        let py := int_add py 1 in
        let offset := int_sub offset (int_sub (X (Max r)) (X p)) in
        let px := X (Min r) in
        Some (mkPoint (int_add px offset) py)
      else Some (mkPoint (int_add (X p) offset) py)
  end.

(** ** Errors *)

Inductive error : Type :=
| errors_New (text : string)
| fmt_Errorf (format : string) (arg : Z)
| external_error (text : string).

(** [Encoder]: the configured bit.  [var enc steg.Encoder] is the zero
    value. *)
Record Encoder : Type := mkEncoder { bit : Z }.

Definition zeroEncoder : Encoder := mkEncoder 0.

(** ** Loops *)

(** One iteration of a loop body: go on, leave the labelled outer loop, or
    panic. *)
Inductive ctl (S : Type) : Type :=
| Continue (s : S)
| Break (s : S)
| Panics.
Arguments Continue {S} s.
Arguments Break {S} s.
Arguments Panics {S}.

Fixpoint for_each {S : Type} (body : Z -> S -> ctl S) (xs : list Z) (s : S) : ctl S :=
  match xs with
  | [] => Continue s
  | x :: xs' =>
      match body x s with
      | Continue s' => for_each body xs' s'
      | Break s' => Break s'
      | Panics => Panics
      end
  end.

(** The values of [for v := lo; v < hi; v++]. *)
Definition range (lo hi : Z) : list Z :=
  map (fun k => lo + Z.of_nat k) (seq 0 (Z.to_nat (hi - lo))).

(** [for i := range bits] over an array or slice: the indices and a fold. *)
Definition indices {T : Type} (l : list T) : list Z := range 0 (Z.of_nat (List.length l)).

Fixpoint set_nth {T : Type} (n : nat) (v : T) (l : list T) : list T :=
  match l, n with
  | [], _ => []
  | _ :: t, O => v :: t
  | h :: t, S n' => h :: set_nth n' v t
  end.

(** [bits[i] = v] and [bits[i]] for an index within the buffer. *)
Definition store {T : Type} (l : list T) (i : Z) (v : T) : list T := set_nth (Z.to_nat i) v l.
Definition load {T : Type} (d : T) (l : list T) (i : Z) : T := nth (Z.to_nat i) l d.

(** ** The outside world

    The file system, the PNG codec and the image object the decoder
    allocates.  A PNG stream is abstracted to the image it decodes to. *)

(** The dynamic type behind an [image.Image]: [*image.RGBA] or anything
    else. *)
Inductive image_Image : Type :=
| Image_RGBA (m : image_RGBA)
| Image_other.

Inductive file : Type :=
| PNG (p : image_Image)
| NotPNG.

Inductive io_event : Type :=
| io_Abs (path : string)
| io_Open (path : string)
| io_Decode
| io_Create (path : string)
| io_Encode (path : string).

Record World : Type := mkWorld {
  abs_path : string -> option string;   (* filepath.Abs; [None]: it fails *)
  files : string -> option file;         (* the files that exist *)
  writable : string -> bool;             (* whether os.Create succeeds *)
  encodable : image_Image -> bool;       (* whether png.Encode succeeds *)
  heap : option image_RGBA;              (* the decoded image object *)
  trace : list io_event                  (* the calls made, latest first *)
}.

Definition log (ev : io_event) (w : World) : World :=
  mkWorld (abs_path w) (files w) (writable w) (encodable w) (heap w) (ev :: trace w).

Definition set_heap (m : option image_RGBA) (w : World) : World :=
  mkWorld (abs_path w) (files w) (writable w) (encodable w) m (trace w).

Definition write_file (path : string) (f : file) (w : World) : World :=
  mkWorld (abs_path w)
    (fun q => if String.eqb q path then Some f else files w q)
    (writable w) (encodable w) (heap w) (trace w).

(** A function body in progress: a value to go on with, a [return], or a
    panic. *)
Inductive res (Ret A : Type) : Type :=
| Val (a : A)
| Return (r : Ret)
| Panic.
Arguments Val {Ret A} a.
Arguments Return {Ret A} r.
Arguments Panic {Ret A}.

Definition IO (Ret A : Type) : Type := World -> res Ret A * World.

Definition pure {Ret A} (a : A) : IO Ret A := fun w => (Val a, w).
Definition return_ {Ret A} (r : Ret) : IO Ret A := fun w => (Return r, w).
Definition panic {Ret A} : IO Ret A := fun w => (Panic, w).

Definition bind {Ret A B} (m : IO Ret A) (k : A -> IO Ret B) : IO Ret B :=
  fun w =>
    match m w with
    | (Val a, w') => k a w'
    | (Return r, w') => (Return r, w')
    | (Panic, w') => (Panic, w')
    end.

Notation "x <- m ;; k" := (bind m (fun x => k))
  (at level 61, m at next level, right associativity).
Notation "' pat <- m ;; k" := (bind m (fun x => let pat := x in k))
  (at level 61, pat pattern, m at next level, right associativity).

(** [if err != nil { return r }]. *)
Definition return_if_err {Ret} (err : option error) (r : Ret) : IO Ret unit :=
  match err with
  | Some _ => return_ r
  | None => pure tt
  end.

(** A call of the function: what it returns ([None]: it panicked) and the
    world it leaves. *)
Definition call {Ret} (m : IO Ret Ret) (w : World) : option Ret * World :=
  match m w with
  | (Val r, w') => (Some r, w')
  | (Return r, w') => (Some r, w')
  | (Panic, w') => (None, w')
  end.

Definition filepath_Abs {Ret} (path : string) : IO Ret (string * option error) :=
  fun w =>
    match abs_path w path with
    | Some q => (Val (q, None), log (io_Abs path) w)
    | None => (Val (EmptyString, Some (external_error "filepath.Abs")), log (io_Abs path) w)
    end.

Definition os_Open {Ret} (path : string) : IO Ret (file * option error) :=
  fun w =>
    match files w path with
    | Some f => (Val (f, None), log (io_Open path) w)
    | None => (Val (NotPNG, Some (external_error "os.Open")), log (io_Open path) w)
    end.

(** [png.Decode]: the image of the stream, allocated afresh. *)
Definition png_Decode {Ret} (r : file) : IO Ret (image_Image * option error) :=
  fun w =>
    match r with
    | PNG (Image_RGBA m) => (Val (Image_RGBA m, None), set_heap (Some m) (log io_Decode w))
    | PNG Image_other => (Val (Image_other, None), log io_Decode w)
    | NotPNG => (Val (Image_other, Some (external_error "png.Decode")), log io_Decode w)
    end.

(** [os.Create]: the file exists afterwards and is empty. *)
Definition os_Create {Ret} (path : string) : IO Ret (string * option error) :=
  fun w =>
    if writable w path
    then (Val (path, None), write_file path NotPNG (log (io_Create path) w))
    else (Val (EmptyString, Some (external_error "os.Create")), log (io_Create path) w).

Definition png_Encode {Ret} (path : string) (p : image_Image) : IO Ret (option error) :=
  fun w =>
    if encodable w p
    then (Val None, write_file path (PNG p) (log (io_Encode path) w))
    else (Val (Some (external_error "png.Encode")), log (io_Encode path) w).

(** The image object after the pixel scan has written to it. *)
Definition store_image {Ret} (m : image_RGBA) : IO Ret unit :=
  fun w => (Val tt, set_heap (Some m) w).

(** The result of a loop nest inside a function body. *)
Definition after_loop {Ret S} (c : ctl S) : IO Ret S :=
  match c with
  | Continue s => pure s
  | Break s => pure s
  | Panics => panic
  end.

Definition or_panic {Ret A} (o : option A) : IO Ret A :=
  match o with
  | Some a => pure a
  | None => panic
  end.

(** The two nested loops over the rectangle, rows outside:
    [for y := Min.Y; y < Max.Y; y++ { for x := Min.X; x < Max.X; x++ { body } }],
    where the body's only [break] leaves both loops. *)
Definition scan {S : Type} (bounds : Rectangle) (body : Z -> Z -> S -> ctl S) (s : S) : ctl S :=
  for_each
    (fun y => for_each (fun x => body x y) (range (X (Min bounds)) (X (Max bounds))))
    (range (Y (Min bounds)) (Y (Max bounds))) s.

(** ** The documented version of the package *)

Module Steg.

Definition before (p1 p2 : Point) : bool :=
  if (Y p1 >=? Y p2) && (X p1 >? X p2) then false else true.

(** The encoder after the call, and the error returned. *)
Definition SetMsgBit (e : Encoder) (n : Z) : Encoder * option error :=
  if (n <? 0) || (n >? 7)
  then (e, Some (fmt_Errorf "msg bit out of bounds: got %d, wanted 0-7 inclusive" n))
  else (mkEncoder n, None).

Definition bitsToByte (bits : list bool) : Z :=
  fold_left
    (fun b i =>
       let pos := pow 2 (7 - i) in
       if load false bits i then byte_add b (byte pos) else b)
    (indices bits) 0.

(** The loop of [byteToBits] threads the array and the remaining value of
    [b]; the array is what the caller sees afterwards. *)
Definition byteToBits_loop (bits : list bool) (b : Z) : list bool * Z :=
  fold_left
    (fun '(bits, b) i =>
       let pos := pow 2 (7 - i) in
       if b - pos >=? 0
       then (store bits i true, byte_sub b (byte pos))
       else (store bits i false, b))
    (indices bits) (bits, b).

Definition byteToBits (bits : list bool) (b : Z) : list bool :=
  fst (byteToBits_loop bits b).

(** The variables the pixel loop of [Encode] updates. *)
Record enc_state : Type := mkEnc { e_img : image_RGBA; e_tmp : list bool; e_i : Z }.

Definition encode_pixel (e : Encoder) (msg : string) (start end_ : Point) (offset : Z)
    (x y : Z) (s : enc_state) : ctl enc_state :=
  if (x <? X start) || (y <? Y start)
  then Continue (mkEnc (e_img s) (e_tmp s) (uint_add (e_i s) 1))
  else if (x =? X end_) && (y =? Y end_)
  then Break s
  else
    let mod_ := e_i s mod 8 in
    let loaded :=
      if mod_ =? 0
      then option_map (byteToBits (e_tmp s)) (index msg (uint_sub (e_i s) offset / 8))
      else Some (e_tmp s) in
    match loaded with
    | None => Panics
    | Some tmp =>
        let '(r, g, b, a) := RGBA_RGBA (At (e_img s) x y) in
        let r :=
          if load false tmp mod_
          then Z.lor r (uint32 (pow 2 (bit e)))
          else uint32 (Z.land (byte r) (byte_not (byte (pow 2 (bit e))))) in
        Continue
          (mkEnc (Set_ (e_img s) x y (mkRGBA (uint8 r) (uint8 g) (uint8 b) (uint8 a)))
             tmp (uint_add (e_i s) 1))
    end.

Definition encode_scan (e : Encoder) (img : image_RGBA) (msg : string) (start end_ : Point)
    : ctl enc_state :=
  let bounds := Bounds img in
  let tmp := repeat false 8 in
  let offset := offsetFromMin bounds start in
  scan bounds (encode_pixel e msg start end_ offset) (mkEnc img tmp 0).

Definition Encode (e : Encoder) (src dst msg : string) (start : Point)
    : IO (Point * option error) (Point * option error) :=
  let end_ := zeroPoint in
  if len msg =? 0 then return_ (end_, Some (errors_New "msg is zero length")) else
  '(src, err) <- filepath_Abs src ;;
  _ <- return_if_err err (end_, err) ;;
  '(dst, err) <- filepath_Abs dst ;;
  _ <- return_if_err err (end_, err) ;;
  '(r, err) <- os_Open src ;;
  _ <- return_if_err err (end_, err) ;;
  '(p, err) <- png_Decode r ;;
  _ <- return_if_err err (end_, err) ;;
  match p with
  | Image_other =>
      return_ (end_, Some (errors_New "failed type assertion from image.Image to image.RGBA"))
  | Image_RGBA img =>
      let bounds := Bounds img in
      end_ <- or_panic (pointAtOffset bounds start (int_mul (len msg) 8)) ;;
      if negb (inBounds bounds start)
      then return_ (end_, Some (errors_New "start point out of bounds"))
      else if negb (inBounds bounds end_)
      then return_ (end_, Some (errors_New "end point out of bounds"))
      else
        s <- after_loop (encode_scan e img msg start end_) ;;
        _ <- store_image (e_img s) ;;
        '(w, err) <- os_Create dst ;;
        _ <- return_if_err err (end_, err) ;;
        err <- png_Encode w (Image_RGBA (e_img s)) ;;
        _ <- return_if_err err (end_, err) ;;
        return_ (end_, None)
  end.

(** The variables the pixel loop of [Decode] updates. *)
Record dec_state : Type := mkDec { d_tmp : list bool; d_i : Z; d_msg : string }.

Definition decode_pixel (e : Encoder) (img : image_RGBA) (start end_ : Point)
    (x y : Z) (s : dec_state) : ctl dec_state :=
  if (x <? X start) || (y <? Y start)
  then Continue (mkDec (d_tmp s) (uint_add (d_i s) 1) (d_msg s))
  else if (x =? X end_) && (y =? Y end_)
  then Break s
  else
    let mod_ := d_i s mod 8 in
    let '(r, _, _, _) := RGBA_RGBA (At img x y) in
    let tmp :=
      if Z.land (byte r) (byte (pow 2 (bit e))) =? 0
      then store (d_tmp s) mod_ false
      else store (d_tmp s) mod_ true in
    let msg :=
      if mod_ =? 8 - 1
      then (d_msg s ++ string_of_byte (bitsToByte tmp))%string
      else d_msg s in
    Continue (mkDec tmp (uint_add (d_i s) 1) msg).

Definition decode_scan (e : Encoder) (img : image_RGBA) (start end_ : Point) : ctl dec_state :=
  scan (Bounds img) (decode_pixel e img start end_) (mkDec (repeat false 8) 0 EmptyString).

Definition Decode (e : Encoder) (src : string) (start end_ : Point)
    : IO (string * option error) (string * option error) :=
  let msg := EmptyString in
  if negb (before start end_)
  then return_ (msg, Some (errors_New "start point does not precede end point")) else
  '(src, err) <- filepath_Abs src ;;
  _ <- return_if_err err (msg, err) ;;
  '(r, err) <- os_Open src ;;
  _ <- return_if_err err (msg, err) ;;
  '(p, err) <- png_Decode r ;;
  _ <- return_if_err err (msg, err) ;;
  match p with
  | Image_other =>
      return_ (msg, Some (errors_New "failed type assertion from image.Image to image.RGBA"))
  | Image_RGBA img =>
      let bounds := Bounds img in
      if negb (inBounds bounds start)
      then return_ (msg, Some (errors_New "start point out of bounds"))
      else if negb (inBounds bounds end_)
      then return_ (msg, Some (errors_New "end point out of bounds"))
      else
        s <- after_loop (decode_scan e img start end_) ;;
        return_ (d_msg s, None)
  end.

End Steg.

(** ** The older copy, [steg/steg.go] *)

Module Legacy.

Definition before (p1 p2 : Point) : bool :=
  if (Y p1 >=? Y p2) && (X p1 >=? X p2) then false else true.

Definition SetMsgBit (e : Encoder) (n : Z) : Encoder * option error :=
  if (n <? 0) || (n >? 7)
  then (e, Some (errors_New "out of bounds"))
  else (mkEncoder n, None).

(** Bit buffers are byte slices here, holding 0 or 1. *)
Definition bitsToByte (bits : list Z) : Z * option error :=
  if negb (Z.of_nat (List.length bits) =? 8)
  then (0, Some (errors_New "byte slice must be exactly len(8)"))
  else
    (fold_left
       (fun b i =>
          let pos := pow 2 (7 - i) in
          if load 0 bits i =? 1 then byte_add b (byte pos) else b)
       (indices bits) 0,
     None).

(** The slice after the call, and the error returned. *)
Definition byteToBits (bits : list Z) (b : Z) : list Z * option error :=
  if negb (Z.of_nat (List.length bits) =? 8)
  then (bits, Some (errors_New "byte slice must be exactly len(8)"))
  else
    (fst
       (fold_left
          (fun '(bits, b) i =>
             let pos := pow 2 (7 - i) in
             if b - pos >=? 0
             then (store bits i 1, byte_sub b (byte pos))
             else (store bits i 0, b))
          (indices bits) (bits, b)),
     None).

Record enc_state : Type := mkEnc { e_img : image_RGBA; e_tmp : list Z; e_i : Z }.

Definition encode_pixel (e : Encoder) (msg : string) (start end_ : Point) (offset : Z)
    (x y : Z) (s : enc_state) : ctl enc_state :=
  if (x <? X start) || (y <? Y start)
  then Continue (mkEnc (e_img s) (e_tmp s) (uint_add (e_i s) 1))
  else if (x =? X end_) && (y =? Y end_)
  then Break s
  else
    let mod_ := e_i s mod 8 in
    let loaded :=
      if mod_ =? 0
      then option_map (fun b => fst (byteToBits (e_tmp s) b))
             (index msg (uint_sub (e_i s) offset / 8))
      else Some (e_tmp s) in
    match loaded with
    | None => Panics
    | Some tmp =>
        let '(r, g, b, a) := RGBA_RGBA (At (e_img s) x y) in
        let r :=
          if load 0 tmp mod_ =? 1
          then Z.lor r (uint32 (pow 2 (bit e)))
          else uint32 (Z.land (byte r) (byte_not (byte (pow 2 (bit e))))) in
        Continue
          (mkEnc (Set_ (e_img s) x y (mkRGBA (uint8 r) (uint8 g) (uint8 b) (uint8 a)))
             tmp (uint_add (e_i s) 1))
    end.

Definition encode_scan (e : Encoder) (img : image_RGBA) (msg : string) (start end_ : Point)
    : ctl enc_state :=
  let bounds := Bounds img in
  let tmp := repeat 0 8 in
  let offset := offsetFromMin bounds start in
  scan bounds (encode_pixel e msg start end_ offset) (mkEnc img tmp 0).

Definition Encode (e : Encoder) (src dst msg : string) (start : Point)
    : IO (Point * option error) (Point * option error) :=
  let end_ := zeroPoint in
  '(src, err) <- filepath_Abs src ;;
  _ <- return_if_err err (end_, err) ;;
  '(dst, err) <- filepath_Abs dst ;;
  _ <- return_if_err err (end_, err) ;;
  '(r, err) <- os_Open src ;;
  _ <- return_if_err err (end_, err) ;;
  '(p, err) <- png_Decode r ;;
  _ <- return_if_err err (end_, err) ;;
  match p with
  | Image_other =>
      return_ (end_, Some (errors_New "failed type assertion from image.Image to image.RGBA"))
  | Image_RGBA img =>
      let bounds := Bounds img in
      end_ <- or_panic (pointAtOffset bounds start (int_mul (len msg) 8)) ;;
      if negb (inBounds bounds start)
      then return_ (end_, Some (errors_New "start point out of bounds"))
      else if negb (inBounds bounds end_)
      then return_ (end_, Some (errors_New "end point out of bounds"))
      else
        s <- after_loop (encode_scan e img msg start end_) ;;
        _ <- store_image (e_img s) ;;
        '(w, err) <- os_Create dst ;;
        _ <- return_if_err err (end_, err) ;;
        err <- png_Encode w (Image_RGBA (e_img s)) ;;
        _ <- return_if_err err (end_, err) ;;
        return_ (end_, None)
  end.

Record dec_state : Type := mkDec { d_tmp : list Z; d_i : Z; d_msg : string }.

Definition decode_pixel (e : Encoder) (img : image_RGBA) (start end_ : Point)
    (x y : Z) (s : dec_state) : ctl dec_state :=
  if (x <? X start) || (y <? Y start)
  then Continue (mkDec (d_tmp s) (uint_add (d_i s) 1) (d_msg s))
  else if (x =? X end_) && (y =? Y end_)
  then Break s
  else
    let mod_ := d_i s mod 8 in
    let '(r, _, _, _) := RGBA_RGBA (At img x y) in
    let tmp :=
      if Z.land (byte r) (byte (pow 2 (bit e))) =? 0
      then store (d_tmp s) mod_ 0
      else store (d_tmp s) mod_ 1 in
    let msg :=
      if mod_ =? 8 - 1
      then (d_msg s ++ string_of_byte (fst (bitsToByte tmp)))%string
      else d_msg s in
    Continue (mkDec tmp (uint_add (d_i s) 1) msg).

Definition decode_scan (e : Encoder) (img : image_RGBA) (start end_ : Point) : ctl dec_state :=
  scan (Bounds img) (decode_pixel e img start end_) (mkDec (repeat 0 8) 0 EmptyString).

Definition Decode (e : Encoder) (src : string) (start end_ : Point)
    : IO (string * option error) (string * option error) :=
  let msg := EmptyString in
  '(src, err) <- filepath_Abs src ;;
  _ <- return_if_err err (msg, err) ;;
  '(r, err) <- os_Open src ;;
  _ <- return_if_err err (msg, err) ;;
  '(p, err) <- png_Decode r ;;
  _ <- return_if_err err (msg, err) ;;
  match p with
  | Image_other =>
      return_ (msg, Some (errors_New "failed type assertion from image.Image to image.RGBA"))
  | Image_RGBA img =>
      let bounds := Bounds img in
      if negb (before start end_)
      then return_ (msg, Some (errors_New "start point does not precede end point"))
      else if negb (inBounds bounds start)
      then return_ (msg, Some (errors_New "start point out of bounds"))
      else if negb (inBounds bounds end_)
      then return_ (msg, Some (errors_New "end point out of bounds"))
      else
        s <- after_loop (decode_scan e img start end_) ;;
        return_ (d_msg s, None)
  end.

End Legacy.

(** * Properties

    The definitions the statements use come first: concrete images and
    worlds, the notions of the specification, and the relations between an
    image and its encoding. *)

(** ** Concrete images and worlds *)

Definition rect10 : Rectangle := mkRect (mkPoint 0 0) (mkPoint 10 10).
Definition rect10x3 : Rectangle := mkRect (mkPoint 0 0) (mkPoint 10 3).
Definition rect_off : Rectangle := mkRect (mkPoint 1 1) (mkPoint 11 11).

(** An opaque black image over [r]. *)
Definition black (r : Rectangle) : image_RGBA := mkImage (fun _ _ => mkRGBA 0 0 0 255) r.

(** A world whose only file is [src.png], holding [img]; every path is
    absolute already, every file can be created, every image encoded. *)
Definition world_with (img : image_RGBA) : World :=
  mkWorld (fun p => Some p)
    (fun p => if String.eqb p "src.png" then Some (PNG (Image_RGBA img)) else None)
    (fun _ => true) (fun _ => true) None [].


(** The pixel at [(x, y)] of the image stored in file [path]. *)
Definition pixel_of_file (w : World) (path : string) (x y : Z) : option color_RGBA :=
  match files w path with
  | Some (PNG (Image_RGBA m)) => Some (At m x y)
  | _ => None
  end.

(** [Encode] to [dst.png], then [Decode] of [dst.png] over the start given
    and the end [Encode] returned. *)
Definition encode_then_decode (e : Encoder) (img : image_RGBA) (msg : string) (start : Point)
    : option (string * option error) :=
  match call (Steg.Encode e "src.png" "dst.png" msg start) (world_with img) with
  | (Some (end_, None), w) => fst (call (Steg.Decode e "dst.png" start end_) w)
  | _ => None
  end.

(** The world after the calls [Encode] makes before it looks at the
    coordinates: both paths resolved, the source opened and decoded. *)
Definition loaded (w : World) (src dst srcA : string) (img : image_RGBA) : World :=
  set_heap (Some img) (log io_Decode (log (io_Open srcA) (log (io_Abs dst) (log (io_Abs src) w)))).

(** ** Notions of the specification *)

(** A point of the half-open rectangle. *)
Definition inside (r : Rectangle) (p : Point) : Prop :=
  X (Min r) <= X p < X (Max r) /\ Y (Min r) <= Y p < Y (Max r).

(** The row-major offset the specification gives, measured from [r.Min]. *)
Definition row_major_offset (r : Rectangle) (p : Point) : Z :=
  (Y p - Y (Min r)) * (X (Max r) - X (Min r)) + (X p - X (Min r)).

(** Pixel [(x, y)] is one of the [8 * n] pixels from [start] on, in row-major
    order, of a rectangle of width [W] at the origin. *)
Definition in_payload (W : Z) (start : Point) (n x y : Z) : Prop :=
  0 <= x < W /\
  Y start * W + X start <= y * W + x < Y start * W + X start + 8 * n.

(** Every byte of the message is below 0x80. *)
Fixpoint ascii_only (msg : string) : bool :=
  match msg with
  | EmptyString => true
  | String a rest => (byte_of_ascii a <? 128) && ascii_only rest
  end.

(** ** Images before and after [Encode] *)

(** Every sample of every pixel is a byte. *)
Definition well_formed (img : image_RGBA) : Prop := forall x y, is_color (Pix img x y).

(** [img'] is [img] up to bit [bit e] of the red samples of pixels at or
    right of [start.X] and at or below [start.Y]. *)
Definition frame (e : Encoder) (start : Point) (img img' : image_RGBA) : Prop :=
  Rect img' = Rect img /\
  well_formed img' /\
  forall x y,
    G (At img' x y) = G (At img x y) /\
    B (At img' x y) = B (At img x y) /\
    A (At img' x y) = A (At img x y) /\
    (forall k, k <> bit e -> Z.testbit (R (At img' x y)) k = Z.testbit (R (At img x y)) k) /\
    (x < X start \/ y < Y start -> At img' x y = At img x y).

(** A loop nest that no panic cut short, and the state it ended in. *)
Definition ends_in {S : Type} (c : ctl S) (s' : S) : Prop := c = Continue s' \/ c = Break s'.

(** ** The payload bit of a pixel and of a message *)

(** The branch of [Encode] that sets or clears bit [n] of the red value [r]. *)
Definition write_bit (n : Z) (set : bool) (r : Z) : Z :=
  if set
  then Z.lor r (uint32 (pow 2 n))
  else uint32 (Z.land (byte r) (byte_not (byte (pow 2 n)))).

(** The test of [Decode] on bit [n] of the red value [r]. *)
Definition read_bit (n : Z) (r : Z) : bool :=
  negb (Z.land (byte r) (byte (pow 2 n)) =? 0).

(** The bit [Decode] reads at pixel [(x, y)]. *)
Definition hidden_bit (e : Encoder) (img : image_RGBA) (x y : Z) : bool :=
  read_bit (bit e) (widen (R (At img x y))).

(** The eight bits of a byte as [byteToBits] leaves them in a fresh buffer. *)
Definition bits_of (b : Z) : list bool := Steg.byteToBits (repeat false 8) b.

(** Byte [k] of a message (0 past its end). *)
Definition byte_at (msg : string) (k : Z) : Z :=
  match index msg k with
  | Some b => b
  | None => 0
  end.

(** Bit [t] of a message: bytes in order, each in the order of [bits_of]. *)
Definition message_bit (msg : string) (t : Z) : bool :=
  nth (Z.to_nat (t mod 8)) (bits_of (byte_at msg (t / 8))) false.

(** The first [k] bytes of a message. *)
Definition prefix (k : Z) (msg : string) : string := substring 0 (Z.to_nat k) msg.

(** A message as [Decode] assembles it, [msg += string(n)] byte by byte:
    every byte replaced by the UTF-8 encoding of its value. *)
Fixpoint recode (msg : string) : string :=
  match msg with
  | EmptyString => EmptyString
  | String a rest => (string_of_byte (byte_of_ascii a) ++ recode rest)%string
  end.

Fixpoint eqb_bits (l l' : list bool) : bool :=
  match l, l' with
  | [], [] => true
  | v :: l, v' :: l' => Bool.eqb v v' && eqb_bits l l'
  | _, _ => false
  end.

(** ** Invariants of the two pixel scans

    [W] is the width of the rectangle, [offset] the row-major offset of the
    start and [t] the number of payload bits handled so far. *)

(** The first [t] payload pixels of [img] hold the first [t] bits of [msg]. *)
Definition carries (e : Encoder) (img : image_RGBA) (W offset : Z) (msg : string) (t : Z) : Prop :=
  forall t', 0 <= t' < t ->
    hidden_bit e img ((offset + t') mod W) ((offset + t') / W) = message_bit msg t'.

(** Every pixel of [img] that is none of the first [t] payload pixels is
    the pixel of [img0]. *)
Definition untouched (img0 img : image_RGBA) (W offset t : Z) : Prop :=
  forall x y,
    (forall t', 0 <= t' < t -> ~ ((offset + t') mod W = x /\ (offset + t') / W = y)) ->
    At img x y = At img0 x y.

(** The state of [Encode]'s loop before payload pixel [t]. *)
Definition enc_inv (e : Encoder) (img0 : image_RGBA) (W offset : Z) (msg : string)
    (t : Z) (s : Steg.enc_state) : Prop :=
  Steg.e_i s = offset + t /\
  Rect (Steg.e_img s) = Rect img0 /\
  well_formed (Steg.e_img s) /\
  List.length (Steg.e_tmp s) = 8%nat /\
  (t mod 8 <> 0 -> Steg.e_tmp s = bits_of (byte_at msg (t / 8))) /\
  carries e (Steg.e_img s) W offset msg t /\
  untouched img0 (Steg.e_img s) W offset t.

(** The state of [Decode]'s loop before payload pixel [t]. *)
Definition dec_inv (W offset : Z) (msg : string) (t : Z) (s : Steg.dec_state) : Prop :=
  Steg.d_i s = offset + t /\
  List.length (Steg.d_tmp s) = 8%nat /\
  Steg.d_msg s = recode (prefix (t / 8) msg) /\
  firstn (Z.to_nat (t mod 8)) (Steg.d_tmp s) =
    firstn (Z.to_nat (t mod 8)) (bits_of (byte_at msg (t / 8))).

(** ** The two versions side by side *)

(** A bit as the older version stores it: the byte 1 or 0. *)
Definition bit_byte (v : bool) : Z := if v then 1 else 0.

(** The loop states of the older version that correspond to those of the
    documented one. *)
Definition legacy_enc (s : Steg.enc_state) : Legacy.enc_state :=
  Legacy.mkEnc (Steg.e_img s) (map bit_byte (Steg.e_tmp s)) (Steg.e_i s).

Definition legacy_dec (s : Steg.dec_state) : Legacy.dec_state :=
  Legacy.mkDec (map bit_byte (Steg.d_tmp s)) (Steg.d_i s) (Steg.d_msg s).

Definition ctl_map {S T : Type} (f : S -> T) (c : ctl S) : ctl T :=
  match c with
  | Continue s => Continue (f s)
  | Break s => Break (f s)
  | Panics => Panics
  end.

(** ** Tactics *)

(** An 8-cell buffer, cell by cell. *)
Ltac eight_cells l :=
  do 8 (destruct l as [| ? l]; [discriminate |]);
  destruct l; [| discriminate].

(** Unfolds the calls of a function body, keeping the world symbolic. *)
Ltac run_io :=
  cbv beta iota delta
    [bind pure return_ panic call return_if_err filepath_Abs os_Open png_Decode
     os_Create png_Encode store_image after_loop or_panic].

(** * Proofs *)

(** ** Ranges and machine integers *)

Lemma In_range (v lo hi : Z) : lo <= v < hi -> In v (range lo hi).
Proof.
  intros Hv. unfold range. apply in_map_iff.
  exists (Z.to_nat (v - lo)). split; [lia | apply in_seq; lia].
Qed.

Lemma range_In (v lo hi : Z) : In v (range lo hi) -> lo <= v < hi.
Proof.
  unfold range. intros Hin. apply in_map_iff in Hin.
  destruct Hin as [k [Hk Hin]]. apply in_seq in Hin. lia.
Qed.

Lemma int_small (z : Z) : is_int z -> int z = z.
Proof.
  unfold is_int, int. intros Hz.
  rewrite Z.mod_small by lia. lia.
Qed.

Lemma uint_small (z : Z) : 0 <= z < 2 ^ 64 -> uint z = z.
Proof. unfold uint. intros Hz. now apply Z.mod_small. Qed.

(** ** Coordinate arithmetic *)

(** [inBounds] is membership in the half-open rectangle. *)
Lemma inBounds_inside (r : Rectangle) (p : Point) : inBounds r p = true <-> inside r p.
Proof.
  unfold inBounds, inside.
  destruct (Z.ltb_spec (X p) (X (Min r))); [split; [discriminate | lia] |].
  destruct (Z.ltb_spec (Y p) (Y (Min r))); [split; [discriminate | lia] |].
  destruct (Z.geb_spec (X p) (X (Max r))); [split; [discriminate | lia] |].
  destruct (Z.geb_spec (Y p) (Y (Max r))); [split; [discriminate | lia] |].
  split; [lia | reflexivity].
Qed.

(** What [offsetFromMin] computes, for every rectangle and point: the offset
    from the coordinate origin (0,0), modulo 2^64. *)
Lemma offsetFromMin_from_origin (r : Rectangle) (p : Point) :
  offsetFromMin r p = (Y p * (X (Max r) - X (Min r)) + X p) mod 2 ^ 64.
Proof.
  unfold offsetFromMin, uint_add, uint_mul, uint_sub, uint.
  rewrite (Z.mod_mod (_ - _)) by lia.
  rewrite <- Zminus_mod.
  rewrite <- Zmult_mod.
  rewrite <- Zplus_mod.
  reflexivity.
Qed.

(** On a rectangle whose minimum is (0,0) this is the offset of the
    specification, as long as the point is not negative and the offset fits
    in a [uint]. *)
Lemma offsetFromMin_at_origin (r : Rectangle) (p : Point) :
  Min r = mkPoint 0 0 ->
  0 <= X p -> 0 <= Y p -> 0 <= X (Max r) ->
  Y p * X (Max r) + X p < 2 ^ 64 ->
  offsetFromMin r p = row_major_offset r p.
Proof.
  intros Hmin Hx Hy Hw Hfit.
  rewrite offsetFromMin_from_origin. unfold row_major_offset.
  rewrite Hmin. simpl. rewrite !Z.sub_0_r.
  apply Z.mod_small. nia.
Qed.

(** On the 10-by-10 rectangle, at (8,1). *)
Lemma offsetFromMin_at_origin_witness :
  offsetFromMin rect10 (mkPoint 8 1) = row_major_offset rect10 (mkPoint 8 1).
Proof.
  apply (offsetFromMin_at_origin rect10 (mkPoint 8 1)).
  - reflexivity.
  - simpl. lia.
  - simpl. lia.
  - simpl. lia.
  - simpl. lia.
Defined.


(** [pointAtOffset] advances the row-major offset by exactly [offset]: for a
    start within the columns of the rectangle and values that do not
    overflow, the point returned lies [offset] pixels after [p]; its column
    is within the rectangle or exactly at [r.Max.X]. *)
Lemma pointAtOffset_advances (r : Rectangle) (p : Point) (offset : Z) :
  X (Min r) <= X p < X (Max r) ->
  - 2 ^ 61 <= X (Min r) -> X (Max r) <= 2 ^ 61 ->
  - 2 ^ 61 <= Y p <= 2 ^ 61 ->
  0 <= offset <= 2 ^ 61 ->
  exists e,
    pointAtOffset r p offset = Some e /\
    row_major_offset r e = row_major_offset r p + offset /\
    X (Min r) <= X e <= X (Max r).
Proof.
  intros Hcol Hmin Hmax Hy Hoff.
  unfold pointAtOffset, row_major_offset, int_div, int_add, int_sub, int_mul.
  set (W := X (Max r) - X (Min r)).
  assert (HW : 0 < W) by (unfold W; lia).
  assert (HW' : W <= 2 ^ 62) by (unfold W; lia).
  rewrite (int_small W) by (unfold is_int; lia).
  destruct (Z.eqb_spec W 0) as [H0 | _]; [lia |].
  rewrite Z.quot_div_nonneg by lia.
  pose proof (Z.div_mod offset W ltac:(lia)) as Hdm.
  pose proof (Z.mod_pos_bound offset W HW) as Hrem.
  assert (Hq : 0 <= offset / W <= offset).
  { split; [apply Z.div_pos; lia |]. apply Z.div_le_upper_bound; nia. }
  set (q := offset / W) in *. set (rem := offset mod W) in *.
  assert (Hprod : q * W = offset - rem) by lia.
  rewrite (int_small q) by (unfold is_int; lia).
  rewrite Hprod.
  rewrite (int_small (offset - rem)) by (unfold is_int; lia).
  replace (offset - (offset - rem)) with rem by lia.
  rewrite (int_small rem) by (unfold is_int; lia).
  rewrite (int_small (Y p + q)) by (unfold is_int; lia).
  rewrite (int_small (X p + rem)) by (unfold is_int; lia).
  destruct (Z.gtb_spec (X p + rem) (X (Max r))) as [Hwrap | Hfit].
  - rewrite (int_small (X (Max r) - X p)) by (unfold is_int; lia).
    rewrite (int_small (rem - _)) by (unfold is_int; lia).
    rewrite (int_small (Y p + q + 1)) by (unfold is_int; lia).
    rewrite (int_small (X (Min r) + _)) by (unfold is_int; lia).
    eexists. split; [reflexivity |]. simpl. fold W. split; [nia | lia].
  - eexists. split; [reflexivity |]. simpl. fold W. split; [nia | lia].
Qed.

(** On the rectangle from (1,1) to (11,11), from (9,1) by 16 pixels. *)
Lemma pointAtOffset_advances_witness :
  exists e,
    pointAtOffset rect_off (mkPoint 9 1) 16 = Some e /\
    row_major_offset rect_off e = row_major_offset rect_off (mkPoint 9 1) + 16 /\
    X (Min rect_off) <= X e <= X (Max rect_off).
Proof.
  apply (pointAtOffset_advances rect_off (mkPoint 9 1) 16); simpl; lia.
Defined.

(** C3, as the specification states it, fails: the end is not (6,1). *)
Lemma pointAtOffset_row_wrap_not_6_1 :
  pointAtOffset rect10 (mkPoint 8 0) 16 <> Some (mkPoint 6 1).
Proof. vm_compute. discriminate. Qed.

(** C3 (amended): on the 10-by-10 rectangle at the origin, advancing from
    (8,0) by 16 bits ends at (4,2): two pixels finish row 0, ten fill row 1
    and four lie on row 2. *)
Theorem pointAtOffset_row_wrap :
  pointAtOffset rect10 (mkPoint 8 0) 16 = Some (mkPoint 4 2).
Proof. vm_compute. reflexivity. Qed.




(** ** Bit packing *)

(** Checked byte by byte; the former content of the buffer is never read. *)
Lemma byteToBits_all_bytes (tmp : list bool) :
  List.length tmp = 8%nat ->
  forallb (fun b => Steg.bitsToByte (Steg.byteToBits tmp b) =? b) (range 0 256) = true.
Proof. intros Htmp. eight_cells tmp. vm_compute. reflexivity. Qed.

Lemma legacy_byteToBits_all_bytes (tmp : list Z) :
  List.length tmp = 8%nat ->
  forallb
    (fun b =>
       match Legacy.bitsToByte (fst (Legacy.byteToBits tmp b)) with
       | (b', None) => b' =? b
       | (_, Some _) => false
       end)
    (range 0 256) = true.
Proof. intros Htmp. eight_cells tmp. vm_compute. reflexivity. Qed.

(** C9: for every byte value [b], whatever the 8-cell buffer held before,
    [bitsToByte] of the buffer [byteToBits] filled from [b] is [b]; in the
    older version likewise, with no error. *)
Theorem bitsToByte_byteToBits (b : Z) (tmp : list bool) (old : list Z) :
  is_byte b ->
  List.length tmp = 8%nat ->
  List.length old = 8%nat ->
  Steg.bitsToByte (Steg.byteToBits tmp b) = b /\
  Legacy.bitsToByte (fst (Legacy.byteToBits old b)) = (b, None).
Proof.
  intros Hb Htmp Hold.
  apply (In_range b 0 256) in Hb.
  split.
  - pose proof (byteToBits_all_bytes tmp Htmp) as Hall.
    rewrite forallb_forall in Hall. apply Hall in Hb. now apply Z.eqb_eq.
  - pose proof (legacy_byteToBits_all_bytes old Hold) as Hall.
    rewrite forallb_forall in Hall. apply Hall in Hb.
    destruct (Legacy.bitsToByte _) as [b' [err |]]; [discriminate |].
    apply Z.eqb_eq in Hb. now subst.
Qed.

(** The byte 0xA5, into buffers that held other values. *)
Lemma bitsToByte_byteToBits_witness :
  Steg.bitsToByte (Steg.byteToBits (repeat true 8) 165) = 165 /\
  Legacy.bitsToByte (fst (Legacy.byteToBits (repeat 7 8) 165)) = (165, None).
Proof.
  apply (bitsToByte_byteToBits 165 (repeat true 8) (repeat 7 8)).
  - unfold is_byte. lia.
  - reflexivity.
  - reflexivity.
Defined.

(** ** The configured bit *)

(** The encoder after a sequence of [SetMsgBit] calls, errors ignored. *)
Lemma SetMsgBit_keeps_range (e : Encoder) (n : Z) :
  0 <= bit e <= 7 -> 0 <= bit (fst (Steg.SetMsgBit e n)) <= 7.
Proof.
  intros He. unfold Steg.SetMsgBit.
  destruct (n <? 0) eqn:Hlo; [exact He |].
  destruct (n >? 7) eqn:Hhi; [exact He |].
  simpl. lia.
Qed.

Lemma legacy_SetMsgBit_keeps_range (e : Encoder) (n : Z) :
  0 <= bit e <= 7 -> 0 <= bit (fst (Legacy.SetMsgBit e n)) <= 7.
Proof.
  intros He. unfold Legacy.SetMsgBit.
  destruct (n <? 0) eqn:Hlo; [exact He |].
  destruct (n >? 7) eqn:Hhi; [exact He |].
  simpl. lia.
Qed.

(** C10, for both versions of [SetMsgBit]: the bit position starts at 0;
    [SetMsgBit n] with [n] in [0,7] stores [n] and returns no error; with
    [n] outside it returns the out-of-bounds error of that version and
    leaves the encoder as it was; so after any sequence of calls the bit
    position is in [0,7]. *)
Theorem SetMsgBit_invariant :
  bit zeroEncoder = 0 /\
  (forall e n, 0 <= n <= 7 ->
     Steg.SetMsgBit e n = (mkEncoder n, None) /\
     Legacy.SetMsgBit e n = (mkEncoder n, None)) /\
  (forall e n, n < 0 \/ n > 7 ->
     Steg.SetMsgBit e n =
       (e, Some (fmt_Errorf "msg bit out of bounds: got %d, wanted 0-7 inclusive" n)) /\
     Legacy.SetMsgBit e n = (e, Some (errors_New "out of bounds"))) /\
  (forall ns,
     0 <= bit (fold_left (fun e n => fst (Steg.SetMsgBit e n)) ns zeroEncoder) <= 7 /\
     0 <= bit (fold_left (fun e n => fst (Legacy.SetMsgBit e n)) ns zeroEncoder) <= 7).
Proof.
  split; [reflexivity |].
  split; [| split].
  - intros e n Hn. unfold Steg.SetMsgBit, Legacy.SetMsgBit.
    destruct (Z.ltb_spec n 0); [lia |].
    destruct (Z.gtb_spec n 7); [lia |]. split; reflexivity.
  - intros e n Hn. unfold Steg.SetMsgBit, Legacy.SetMsgBit.
    destruct (Z.ltb_spec n 0); [split; reflexivity |].
    destruct (Z.gtb_spec n 7); [split; reflexivity | lia].
  - intros ns.
    assert (Hinv : forall e, 0 <= bit e <= 7 ->
              0 <= bit (fold_left (fun e n => fst (Steg.SetMsgBit e n)) ns e) <= 7).
    { induction ns as [| n ns IH]; intros e He; simpl.
      - exact He.
      - apply IH. now apply SetMsgBit_keeps_range. }
    assert (Hinv' : forall e, 0 <= bit e <= 7 ->
              0 <= bit (fold_left (fun e n => fst (Legacy.SetMsgBit e n)) ns e) <= 7).
    { clear Hinv. induction ns as [| n ns IH]; intros e He; simpl.
      - exact He.
      - apply IH. now apply legacy_SetMsgBit_keeps_range. }
    split; [apply Hinv | apply Hinv']; simpl; lia.
Qed.

(** The older version differs in the error's text only. *)
Lemma legacy_SetMsgBit_same_state (e : Encoder) (n : Z) :
  fst (Legacy.SetMsgBit e n) = fst (Steg.SetMsgBit e n) /\
  (snd (Legacy.SetMsgBit e n) = None <-> snd (Steg.SetMsgBit e n) = None).
Proof.
  unfold Legacy.SetMsgBit, Steg.SetMsgBit.
  destruct ((n <? 0) || (n >? 7)); simpl; split; try reflexivity; split; discriminate.
Qed.

(** Bit 7 accepted, bit 8 refused, and a sequence of four calls, in both
    versions. *)
Lemma SetMsgBit_invariant_witness :
  (Steg.SetMsgBit zeroEncoder 7 = (mkEncoder 7, None) /\
   Legacy.SetMsgBit zeroEncoder 7 = (mkEncoder 7, None)) /\
  (Steg.SetMsgBit (mkEncoder 7) 8 =
     (mkEncoder 7, Some (fmt_Errorf "msg bit out of bounds: got %d, wanted 0-7 inclusive" 8)) /\
   Legacy.SetMsgBit (mkEncoder 7) 8 = (mkEncoder 7, Some (errors_New "out of bounds"))) /\
  (0 <= bit (fold_left (fun e n => fst (Steg.SetMsgBit e n)) [3; 9; -1; 7] zeroEncoder) <= 7 /\
   0 <= bit (fold_left (fun e n => fst (Legacy.SetMsgBit e n)) [3; 9; -1; 7] zeroEncoder)
     <= 7).
Proof.
  destruct SetMsgBit_invariant as [_ [Hin [Hout Hseq]]].
  split; [apply Hin; lia |].
  split; [apply Hout; lia |].
  apply Hseq.
Defined.

(** ** Rejections *)

(** [Encode] of the documented version with a zero-length message returns
    the error "msg is zero length" and leaves the world as it found it: no
    path resolved, no file opened, decoded, created or written (the trace
    of calls is unchanged). *)
Lemma Encode_rejects_empty_message
    (e : Encoder) (src dst msg : string) (start : Point) (w : World) :
  len msg = 0 ->
  call (Steg.Encode e src dst msg start) w =
    (Some (zeroPoint, Some (errors_New "msg is zero length")), w).
Proof.
  intros Hlen. unfold Steg.Encode. rewrite Hlen. reflexivity.
Qed.

(** The empty message on the 10-by-10 image. *)
Lemma Encode_rejects_empty_message_witness :
  call (Steg.Encode zeroEncoder "src.png" "dst.png" "" (mkPoint 2 0)) (world_with (black rect10)) =
    (Some (zeroPoint, Some (errors_New "msg is zero length")), world_with (black rect10)).
Proof.
  apply (Encode_rejects_empty_message zeroEncoder "src.png" "dst.png" "" (mkPoint 2 0)).
  reflexivity.
Defined.

(** C5 in the two versions.  The documented [Encode] rejects the empty
    message with "msg is zero length" before any I/O, whatever the other
    arguments and the world.  The older [Encode] in [steg/steg.go] has no
    such test: on the 10-by-10 image, with start (2,0), it resolves both
    paths, opens and decodes the source, creates the destination and writes
    a copy of the image to it, and returns the start as the end with no
    error. *)
Theorem legacy_Encode_accepts_empty_message :
  (forall e src dst start w,
     call (Steg.Encode e src dst "" start) w =
       (Some (zeroPoint, Some (errors_New "msg is zero length")), w)) /\
  fst (call (Legacy.Encode zeroEncoder "src.png" "dst.png" "" (mkPoint 2 0))
         (world_with (black rect10))) = Some (mkPoint 2 0, None) /\
  trace (snd (call (Legacy.Encode zeroEncoder "src.png" "dst.png" "" (mkPoint 2 0))
                (world_with (black rect10)))) =
    [io_Encode "dst.png"; io_Create "dst.png"; io_Decode;
     io_Open "src.png"; io_Abs "dst.png"; io_Abs "src.png"] /\
  files (world_with (black rect10)) "dst.png" = None /\
  files (snd (call (Legacy.Encode zeroEncoder "src.png" "dst.png" "" (mkPoint 2 0))
                (world_with (black rect10)))) "dst.png" =
    Some (PNG (Image_RGBA (black rect10))).
Proof.
  split.
  - intros e src dst start w. apply Encode_rejects_empty_message. reflexivity.
  - split; [| split; [| split]]; vm_compute; reflexivity.
Qed.

(** [before] lets equal points through; the older version does not. *)
Lemma before_reflexive (p : Point) : Steg.before p p = true.
Proof.
  unfold Steg.before. destruct (Z.gtb_spec (X p) (X p)); [lia |].
  now rewrite andb_false_r.
Qed.

Lemma legacy_before_irreflexive (p : Point) : Legacy.before p p = false.
Proof.
  unfold Legacy.before.
  destruct (Z.geb_spec (Y p) (Y p)); [| lia].
  destruct (Z.geb_spec (X p) (X p)); [reflexivity | lia].
Qed.

(** [before] in terms of the coordinates. *)
Lemma before_false_iff (p1 p2 : Point) :
  Steg.before p1 p2 = false <-> Y p1 >= Y p2 /\ X p1 > X p2.
Proof.
  unfold Steg.before.
  destruct (Z.geb_spec (Y p1) (Y p2)); destruct (Z.gtb_spec (X p1) (X p2));
    simpl; split; intros; try discriminate; try lia; reflexivity.
Qed.

(** In the older version [before] is false exactly when the first
    point is at or below the second's row and at or right of its column. *)
Lemma legacy_before_false_iff (p1 p2 : Point) :
  Legacy.before p1 p2 = false <-> Y p1 >= Y p2 /\ X p1 >= X p2.
Proof.
  unfold Legacy.before.
  destruct (Z.geb_spec (Y p1) (Y p2)); destruct (Z.geb_spec (X p1) (X p2));
    simpl; split; intros; try discriminate; try lia; reflexivity.
Qed.

(** C6 at [start = end = (0,0)] on a 10-by-10 image: [Decode] returns the
    empty message and no error; the older version returns the ordering
    error there. *)
Theorem Decode_accepts_start_equal_end :
  fst (call (Steg.Decode zeroEncoder "src.png" (mkPoint 0 0) (mkPoint 0 0))
         (world_with (black rect10))) = Some (EmptyString, None) /\
  fst (call (Legacy.Decode zeroEncoder "src.png" (mkPoint 0 0) (mkPoint 0 0))
         (world_with (black rect10))) =
    Some (EmptyString, Some (errors_New "start point does not precede end point")).
Proof. split; vm_compute; reflexivity. Qed.

(** X4: What the ordering check of [Decode] does reject, before any I/O: a
    start at or below the end's row and right of the end's column. *)
Lemma Decode_rejects_not_before (e : Encoder) (src : string) (start end_ : Point) (w : World) :
  Y start >= Y end_ -> X start > X end_ ->
  call (Steg.Decode e src start end_) w =
    (Some (EmptyString, Some (errors_New "start point does not precede end point")), w).
Proof.
  intros Hy Hx. unfold Steg.Decode.
  assert (Hb : Steg.before start end_ = false) by (apply before_false_iff; lia).
  rewrite Hb. reflexivity.
Qed.

(** A start below and right of the end. *)
Lemma Decode_rejects_not_before_witness :
  call (Steg.Decode zeroEncoder "src.png" (mkPoint 5 3) (mkPoint 2 1)) (world_with (black rect10)) =
    (Some (EmptyString, Some (errors_New "start point does not precede end point")),
     world_with (black rect10)).
Proof.
  apply (Decode_rejects_not_before zeroEncoder "src.png" (mkPoint 5 3) (mkPoint 2 1)).
  - simpl. lia.
  - simpl. lia.
Defined.

(** C7: for a non-empty message and a source that loads as an RGBA image,
    if [start] or the computed [end] is outside the half-open image
    rectangle then [Encode] returns the error naming that coordinate
    ([start] first); the image object is as it was decoded, no file is
    created or written, and the only calls made are the two path
    resolutions, the open and the decode. *)
Theorem Encode_rejects_out_of_bounds
    (e : Encoder) (src dst msg srcA dstA : string) (start end_ : Point)
    (img : image_RGBA) (w : World) :
  len msg <> 0 ->
  abs_path w src = Some srcA ->
  abs_path w dst = Some dstA ->
  files w srcA = Some (PNG (Image_RGBA img)) ->
  pointAtOffset (Bounds img) start (int_mul (len msg) 8) = Some end_ ->
  ~ inside (Bounds img) start \/ ~ inside (Bounds img) end_ ->
  exists err w',
    call (Steg.Encode e src dst msg start) w = (Some (end_, Some err), w') /\
    (~ inside (Bounds img) start -> err = errors_New "start point out of bounds") /\
    (inside (Bounds img) start -> err = errors_New "end point out of bounds") /\
    files w' = files w /\
    heap w' = Some img /\
    trace w' = [io_Decode; io_Open srcA; io_Abs dst; io_Abs src] ++ trace w.
Proof.
  intros Hlen Hsrc Hdst Hfile Hend Hout.
  exists (errors_New (if inBounds (Bounds img) start
                      then "end point out of bounds"
                      else "start point out of bounds")).
  exists (loaded w src dst srcA img).
  split.
  - unfold Steg.Encode.
    destruct (Z.eqb_spec (len msg) 0) as [H0 | _]; [contradiction |].
    run_io. rewrite Hsrc. simpl. rewrite Hdst. simpl. rewrite Hfile. simpl.
    rewrite Hend. simpl.
    destruct (inBounds (Bounds img) start) eqn:Hs; simpl; [| reflexivity].
    destruct (inBounds (Bounds img) end_) eqn:He; simpl; [| reflexivity].
    apply inBounds_inside in Hs, He. tauto.
  - split; [| split; [| repeat split]].
    + intros Hs. destruct (inBounds (Bounds img) start) eqn:Hin; [| reflexivity].
      apply inBounds_inside in Hin. contradiction.
    + intros Hs. apply inBounds_inside in Hs. now rewrite Hs.
Qed.

(** One byte from (2,0) on the 10-by-10 image: the computed end is (10,0),
    in column [Max.X]. *)
Lemma Encode_rejects_out_of_bounds_witness :
  exists err w',
    call (Steg.Encode zeroEncoder "src.png" "dst.png" "A" (mkPoint 2 0))
      (world_with (black rect10)) = (Some (mkPoint 10 0, Some err), w') /\
    (~ inside (Bounds (black rect10)) (mkPoint 2 0) ->
     err = errors_New "start point out of bounds") /\
    (inside (Bounds (black rect10)) (mkPoint 2 0) ->
     err = errors_New "end point out of bounds") /\
    files w' = files (world_with (black rect10)) /\
    heap w' = Some (black rect10) /\
    trace w' = [io_Decode; io_Open "src.png"; io_Abs "dst.png"; io_Abs "src.png"].
Proof.
  apply (Encode_rejects_out_of_bounds zeroEncoder "src.png" "dst.png" "A" "src.png" "dst.png"
           (mkPoint 2 0) (mkPoint 10 0) (black rect10) (world_with (black rect10))).
  - discriminate.
  - reflexivity.
  - reflexivity.
  - reflexivity.
  - reflexivity.
  - right. unfold inside. simpl. lia.
Defined.

(** The older version rejects the same coordinates in the same way. *)
Lemma legacy_Encode_rejects_out_of_bounds
    (e : Encoder) (src dst msg srcA dstA : string) (start end_ : Point)
    (img : image_RGBA) (w : World) :
  abs_path w src = Some srcA ->
  abs_path w dst = Some dstA ->
  files w srcA = Some (PNG (Image_RGBA img)) ->
  pointAtOffset (Bounds img) start (int_mul (len msg) 8) = Some end_ ->
  inBounds (Bounds img) start = false \/ inBounds (Bounds img) end_ = false ->
  call (Legacy.Encode e src dst msg start) w =
    (Some (end_,
           Some (errors_New (if inBounds (Bounds img) start
                             then "end point out of bounds"
                             else "start point out of bounds"))),
     loaded w src dst srcA img).
Proof.
  intros Hsrc Hdst Hfile Hend Hout.
  unfold Legacy.Encode.
  run_io. rewrite Hsrc. simpl. rewrite Hdst. simpl. rewrite Hfile. simpl.
  rewrite Hend. simpl.
  destruct (inBounds (Bounds img) start) eqn:Hs; simpl.
  - destruct Hout as [Hout | Hout]; [discriminate |].
    rewrite Hout. reflexivity.
  - reflexivity.
Qed.

(** ** The pixel scan at concrete inputs *)

(** C1 at the 10-by-10 black image, [start = (2,0)], message "Hi", bit 0:
    [Encode] succeeds and returns [end = (8,1)], both coordinates are inside
    the rectangle, and [Decode] over them returns the two bytes 0x00 'H'
    instead of "Hi". *)
Theorem encode_then_decode_loses_message :
  fst (call (Steg.Encode zeroEncoder "src.png" "dst.png" "Hi" (mkPoint 2 0))
         (world_with (black rect10))) = Some (mkPoint 8 1, None) /\
  inBounds rect10 (mkPoint 2 0) = true /\
  inBounds rect10 (mkPoint 8 1) = true /\
  encode_then_decode zeroEncoder (black rect10) "Hi" (mkPoint 2 0) =
    Some (String (ascii_of_byte 0) "H", None).
Proof. repeat split; vm_compute; reflexivity. Qed.

(** The same loss for a start on a byte boundary whose message runs over
    the end of the row (only columns from [start.X] on are visited), and for
    a byte above 0x7F ([string(n)] yields two bytes); a message that starts
    at the origin does come back. *)
Lemma encode_then_decode_other_cases :
  encode_then_decode zeroEncoder (black (mkRect (mkPoint 0 0) (mkPoint 16 2))) "Hi" (mkPoint 8 0) =
    Some ("H"%string, None) /\
  encode_then_decode zeroEncoder (black rect10) (String (ascii_of_byte 200) "") (mkPoint 0 0) =
    Some (String (ascii_of_byte 195) (String (ascii_of_byte 136) ""), None) /\
  encode_then_decode zeroEncoder (black rect10) "Hi" (mkPoint 0 0) = Some ("Hi"%string, None).
Proof. repeat split; vm_compute; reflexivity. Qed.

(** C2 at the 10-by-10 black image, [start = (8,0)], message "Hi": the
    computed end is (4,2), both coordinates pass the bounds checks, and the
    scan panics: the end pixel lies left of [start.X] and is skipped, so the
    loop runs on to pixel (8,4), where [i = 48] and the index
    [(48 - 8) / 8 = 5] is past the two bytes of the message. *)
Theorem encode_scan_reads_past_message :
  pointAtOffset rect10 (mkPoint 8 0) (int_mul (len "Hi") 8) = Some (mkPoint 4 2) /\
  inBounds rect10 (mkPoint 8 0) = true /\
  inBounds rect10 (mkPoint 4 2) = true /\
  Steg.encode_scan zeroEncoder (black rect10) "Hi" (mkPoint 8 0) (mkPoint 4 2) = Panics /\
  index "Hi" (uint_sub 48 (offsetFromMin rect10 (mkPoint 8 0)) / 8) = None /\
  fst (call (Steg.Encode zeroEncoder "src.png" "dst.png" "Hi" (mkPoint 8 0))
         (world_with (black rect10))) = None.
Proof. repeat split; vm_compute; reflexivity. Qed.

(** C8 at the 10-by-3 black image, [start = (8,0)], message "Hi": [Encode]
    succeeds with [end = (4,2)], and the pixel (8,2), which comes after the
    end in row-major order, has its red sample changed from 0 to 1 in the
    output file. *)
Theorem Encode_writes_after_end :
  let '(r, w) :=
    call (Steg.Encode zeroEncoder "src.png" "dst.png" "Hi" (mkPoint 8 0))
      (world_with (black rect10x3)) in
  r = Some (mkPoint 4 2, None) /\
  At (black rect10x3) 8 2 = mkRGBA 0 0 0 255 /\
  pixel_of_file w "dst.png" 8 2 = Some (mkRGBA 1 0 0 255).
Proof. vm_compute. repeat split; reflexivity. Qed.

(** ** Loops over ranges *)

Lemma seq_from (a n : nat) : seq a n = map (Nat.add a) (seq 0 n).
Proof.
  revert a. induction n as [| n IH]; intros a; simpl; [reflexivity |].
  f_equal; [lia |]. rewrite (IH (S a)), (IH 1%nat), map_map.
  apply map_ext. intros k. lia.
Qed.

Lemma range_nil (lo hi : Z) : hi <= lo -> range lo hi = [].
Proof.
  intros Hle. unfold range. replace (Z.to_nat (hi - lo)) with 0%nat by lia. reflexivity.
Qed.

Lemma range_split (lo mid hi : Z) :
  lo <= mid <= hi -> range lo hi = range lo mid ++ range mid hi.
Proof.
  intros Hmid. unfold range.
  replace (Z.to_nat (hi - lo)) with (Z.to_nat (mid - lo) + Z.to_nat (hi - mid))%nat by lia.
  rewrite seq_app, map_app. f_equal.
  rewrite (seq_from (0 + Z.to_nat (mid - lo))).
  rewrite map_map. apply map_ext. intros k. lia.
Qed.

Lemma range_cons (lo hi : Z) : lo < hi -> range lo hi = lo :: range (lo + 1) hi.
Proof.
  intros Hlt. rewrite (range_split lo (lo + 1) hi) by lia.
  unfold range at 1. replace (Z.to_nat (lo + 1 - lo)) with 1%nat by lia.
  simpl. f_equal. lia.
Qed.

Lemma range_shift (a lo hi : Z) : range (a + lo) (a + hi) = map (Z.add a) (range lo hi).
Proof.
  unfold range. replace (a + hi - (a + lo)) with (hi - lo) by lia.
  rewrite map_map. apply map_ext. intros k. lia.
Qed.

Section ForEach.
Context {S : Type}.

Lemma for_each_app (body : Z -> S -> ctl S) (xs ys : list Z) (s : S) :
  for_each body (xs ++ ys) s =
    match for_each body xs s with
    | Continue s' => for_each body ys s'
    | Break s' => Break s'
    | Panics => Panics
    end.
Proof.
  revert s. induction xs as [| x xs IH]; intros s; simpl; [reflexivity |].
  destruct (body x s); [apply IH | reflexivity | reflexivity].
Qed.

Lemma for_each_map (body : Z -> S -> ctl S) (g : Z -> Z) (xs : list Z) (s : S) :
  for_each body (map g xs) s = for_each (fun x => body (g x)) xs s.
Proof.
  revert s. induction xs as [| x xs IH]; intros s; simpl; [reflexivity |].
  destruct (body (g x) s); [apply IH | reflexivity | reflexivity].
Qed.

Lemma for_each_ext (body body' : Z -> S -> ctl S) (xs : list Z) (s : S) :
  (forall x, In x xs -> forall s, body x s = body' x s) ->
  for_each body xs s = for_each body' xs s.
Proof.
  revert s. induction xs as [| x xs IH]; intros s Hext; simpl; [reflexivity |].
  rewrite <- (Hext x) by now left.
  destruct (body x s); [| reflexivity | reflexivity].
  apply IH. intros x' Hin. apply Hext. now right.
Qed.

(** A loop whose every iteration goes on and keeps the invariant runs to
    the end of the range. *)
Lemma for_each_range (Inv : Z -> S -> Prop) (body : Z -> S -> ctl S) (lo hi : Z) :
  lo <= hi ->
  (forall j s, lo <= j < hi -> Inv j s -> exists s', body j s = Continue s' /\ Inv (j + 1) s') ->
  forall s, Inv lo s ->
  exists s', for_each body (range lo hi) s = Continue s' /\ Inv hi s'.
Proof.
  intros Hle Hstep.
  remember (Z.to_nat (hi - lo)) as n eqn:Hn.
  revert lo Hle Hstep Hn. induction n as [| n IH]; intros lo Hle Hstep Hn s Hs.
  - assert (lo = hi) by lia. subst lo.
    rewrite range_nil by lia. exists s. split; [reflexivity | exact Hs].
  - rewrite range_cons by lia. simpl.
    destruct (Hstep lo s ltac:(lia) Hs) as [s1 [Hbody Hs1]]. rewrite Hbody.
    apply (IH (lo + 1)); [lia | | lia | exact Hs1].
    intros j s0 Hj. apply Hstep. lia.
Qed.

(** A loop that goes on up to [mid] and breaks there. *)
Lemma for_each_range_break (body : Z -> S -> ctl S) (lo mid hi : Z) (s s' sb : S) :
  lo <= mid < hi ->
  for_each body (range lo mid) s = Continue s' ->
  body mid s' = Break sb ->
  for_each body (range lo hi) s = Break sb.
Proof.
  intros Hmid Hrun Hbreak.
  rewrite (range_split lo mid hi) by lia. rewrite for_each_app, Hrun.
  rewrite range_cons by lia. simpl. now rewrite Hbreak.
Qed.

(** The two nested loops over a rectangle at the origin are one loop over
    the row-major offsets. *)
Lemma scan_flat (r : Rectangle) (body : Z -> Z -> S -> ctl S) (s : S) :
  Min r = mkPoint 0 0 ->
  0 < X (Max r) -> 0 <= Y (Max r) ->
  scan r body s =
    for_each (fun j => body (j mod X (Max r)) (j / X (Max r))) (range 0 (X (Max r) * Y (Max r))) s.
Proof.
  intros Hmin HW HH. unfold scan. rewrite Hmin. simpl.
  set (W := X (Max r)) in *.
  rewrite <- (Z2Nat.id (Y (Max r))) by lia.
  generalize (Z.to_nat (Y (Max r))) as h. clear HH.
  intros h. revert s. induction h as [| h IH]; intros s.
  - simpl. rewrite Z.mul_0_r. reflexivity.
  - rewrite Nat2Z.inj_succ.
    rewrite (range_split 0 (Z.of_nat h) (Z.succ (Z.of_nat h))) by lia.
    rewrite (range_split 0 (W * Z.of_nat h) (W * Z.succ (Z.of_nat h))) by nia.
    rewrite !for_each_app, IH.
    destruct (for_each _ (range 0 (W * Z.of_nat h)) s) as [s1 | s1 |]; try reflexivity.
    rewrite (range_cons (Z.of_nat h)) by lia.
    rewrite (range_nil (Z.of_nat h + 1)) by lia. simpl.
    replace (W * Z.succ (Z.of_nat h)) with (W * Z.of_nat h + W) by lia.
    replace (range (W * Z.of_nat h) (W * Z.of_nat h + W))
      with (map (Z.add (W * Z.of_nat h)) (range 0 W))
      by (rewrite <- range_shift; f_equal; lia).
    rewrite for_each_map.
    rewrite (for_each_ext (fun x => body x (Z.of_nat h))
               (fun x => body ((W * Z.of_nat h + x) mod W) ((W * Z.of_nat h + x) / W))).
    + now destruct (for_each _ (range 0 W) s1).
    + intros x Hin s0. apply range_In in Hin.
      rewrite (Z.mul_comm W), Z.add_comm, Z_mod_plus_full, Z_div_plus by lia.
      rewrite Z.mod_small, Z.div_small by lia. f_equal.
Qed.
End ForEach.

(** ** One payload bit *)

Lemma eqb_bits_eq (l l' : list bool) : eqb_bits l l' = true -> l = l'.
Proof.
  revert l'. induction l as [| v l IH]; intros [| v' l'] Heq; simpl in Heq;
    try discriminate; [reflexivity |].
  apply andb_prop in Heq. destruct Heq as [Hv Hl].
  apply Bool.eqb_prop in Hv. subst. f_equal. now apply IH.
Qed.

Lemma read_write_bit_all :
  forallb
    (fun n =>
       forallb
         (fun r =>
            Bool.eqb (read_bit n (widen (uint8 (write_bit n true (widen r))))) true
            && Bool.eqb (read_bit n (widen (uint8 (write_bit n false (widen r))))) false)
         (range 0 256))
    (range 0 8) = true.
Proof. vm_compute. reflexivity. Qed.

(** The bit written into a red sample is the bit read back from it. *)
Lemma read_write_bit (n r : Z) (v : bool) :
  0 <= n <= 7 -> is_byte r ->
  read_bit n (widen (uint8 (write_bit n v (widen r)))) = v.
Proof.
  intros Hn Hr.
  pose proof read_write_bit_all as Hall. rewrite forallb_forall in Hall.
  specialize (Hall n (In_range n 0 8 ltac:(lia))).
  rewrite forallb_forall in Hall.
  specialize (Hall r (In_range r 0 256 Hr)).
  apply andb_prop in Hall. destruct Hall as [Ht Hf].
  apply Bool.eqb_prop in Ht, Hf. now destruct v.
Qed.

Lemma byteToBits_fresh (tmp : list bool) :
  List.length tmp = 8%nat ->
  forallb (fun b => eqb_bits (Steg.byteToBits tmp b) (bits_of b)) (range 0 256) = true.
Proof. intros Htmp. eight_cells tmp. vm_compute. reflexivity. Qed.

(** [byteToBits] overwrites the whole buffer. *)
Lemma byteToBits_bits_of (tmp : list bool) (b : Z) :
  List.length tmp = 8%nat -> is_byte b -> Steg.byteToBits tmp b = bits_of b.
Proof.
  intros Htmp Hb. pose proof (byteToBits_fresh tmp Htmp) as Hall.
  rewrite forallb_forall in Hall. apply eqb_bits_eq, Hall. now apply In_range.
Qed.

Lemma bits_of_length_all :
  forallb (fun b => Nat.eqb (List.length (bits_of b)) 8) (range 0 256) = true.
Proof. vm_compute. reflexivity. Qed.

Lemma bits_of_length (b : Z) : is_byte b -> List.length (bits_of b) = 8%nat.
Proof.
  intros Hb. pose proof bits_of_length_all as Hall. rewrite forallb_forall in Hall.
  apply Nat.eqb_eq, Hall. now apply In_range.
Qed.

Lemma bitsToByte_bits_of (b : Z) : is_byte b -> Steg.bitsToByte (bits_of b) = b.
Proof.
  intros Hb. pose proof (byteToBits_all_bytes (repeat false 8) eq_refl) as Hall.
  rewrite forallb_forall in Hall. apply Z.eqb_eq. apply (Hall b). now apply In_range.
Qed.

(** ** What the pixel scan of [Encode] leaves alone *)

Lemma uint8_widen_all : forallb (fun v => uint8 (widen v) =? v) (range 0 256) = true.
Proof. vm_compute. reflexivity. Qed.

Lemma uint8_widen (v : Z) : is_byte v -> uint8 (widen v) = v.
Proof.
  intros Hv. apply (In_range v 0 256) in Hv.
  pose proof uint8_widen_all as Hall. rewrite forallb_forall in Hall.
  apply Z.eqb_eq. now apply Hall.
Qed.

Lemma Rect_Set_ (m : image_RGBA) (x y : Z) (c : color_RGBA) : Rect (Set_ m x y c) = Rect m.
Proof. unfold Set_. now destruct (point_In x y (Rect m)). Qed.

Lemma At_Set_ (m : image_RGBA) (x y x' y' : Z) (c : color_RGBA) :
  At (Set_ m x y c) x' y' =
    if point_In x y (Rect m) && ((x' =? x) && (y' =? y)) then c else At m x' y'.
Proof.
  unfold Set_, At. destruct (point_In x y (Rect m)) eqn:Hin; simpl; [| reflexivity].
  destruct ((x' =? x) && (y' =? y)) eqn:Heq.
  - apply andb_prop in Heq. destruct Heq as [Hx Hy].
    apply Z.eqb_eq in Hx, Hy. subst. now rewrite Hin.
  - reflexivity.
Qed.

Lemma At_is_color (m : image_RGBA) (x y : Z) : well_formed m -> is_color (At m x y).
Proof.
  intros Hwf. unfold At. destruct (point_In x y (Rect m)); [apply Hwf |].
  unfold is_color, is_byte. simpl. lia.
Qed.

Lemma uint8_is_byte (z : Z) : is_byte (uint8 z).
Proof. unfold is_byte, uint8. pose proof (Z.mod_pos_bound z (2 ^ 8)). lia. Qed.

Lemma well_formed_Set_ (m : image_RGBA) (x y : Z) (c : color_RGBA) :
  well_formed m -> is_color c -> well_formed (Set_ m x y c).
Proof.
  intros Hwf Hc. unfold Set_. destruct (point_In x y (Rect m)); [| exact Hwf].
  intros x' y'. simpl. destruct ((x' =? x) && (y' =? y)); [exact Hc | apply Hwf].
Qed.

Section Loops.
Context {S : Type} (P : S -> Prop).

Lemma for_each_invariant (body : Z -> S -> ctl S) (xs : list Z) :
  (forall x s s', P s -> ends_in (body x s) s' -> P s') ->
  forall s s', P s -> ends_in (for_each body xs s) s' -> P s'.
Proof.
  intros Hbody. induction xs as [| x xs IH]; intros s s' Hs Hrun; simpl in Hrun.
  - destruct Hrun as [Hrun | Hrun]; [| discriminate]. now inversion Hrun; subst.
  - destruct (body x s) as [s1 | s1 |] eqn:Hstep.
    + apply (IH s1); [| exact Hrun]. apply (Hbody x s); [exact Hs | now left].
    + destruct Hrun as [Hrun | Hrun]; [discriminate |]. inversion Hrun; subst.
      apply (Hbody x s); [exact Hs | now right].
    + destruct Hrun; discriminate.
Qed.

Lemma scan_invariant (bounds : Rectangle) (body : Z -> Z -> S -> ctl S) :
  (forall x y s s', P s -> ends_in (body x y s) s' -> P s') ->
  forall s s', P s -> ends_in (scan bounds body s) s' -> P s'.
Proof.
  intros Hbody. unfold scan. apply for_each_invariant.
  intros y. apply for_each_invariant. intros x. apply Hbody.
Qed.
End Loops.

Lemma write_bit_other_bits_all :
  forallb
    (fun n =>
       forallb
         (fun r =>
            forallb
              (fun k =>
                 (k =? n)
                 || (Bool.eqb (Z.testbit (uint8 (write_bit n true (widen r))) k) (Z.testbit r k)
                     && Bool.eqb (Z.testbit (uint8 (write_bit n false (widen r))) k)
                          (Z.testbit r k)))
              (range 0 8))
         (range 0 256))
    (range 0 8) = true.
Proof. vm_compute. reflexivity. Qed.

Lemma testbit_byte_high (r k : Z) : is_byte r -> 8 <= k -> Z.testbit r k = false.
Proof.
  intros Hr Hk. rewrite <- (Z.mod_small r (2 ^ 8)) by exact Hr.
  apply Z.mod_pow2_bits_high. lia.
Qed.

(** Writing bit [n] of a red sample leaves its other bits as they were. *)
Lemma write_bit_other_bits (n r k : Z) (v : bool) :
  0 <= n <= 7 -> is_byte r -> k <> n ->
  Z.testbit (uint8 (write_bit n v (widen r))) k = Z.testbit r k.
Proof.
  intros Hn Hr Hk.
  destruct (Z.ltb_spec k 0) as [Hneg |]; [now rewrite !Z.testbit_neg_r |].
  destruct (Z.leb_spec 8 k) as [Hhigh |].
  { rewrite (testbit_byte_high r k Hr Hhigh).
    apply testbit_byte_high; [apply uint8_is_byte | exact Hhigh]. }
  pose proof write_bit_other_bits_all as Hall. rewrite forallb_forall in Hall.
  specialize (Hall n (In_range n 0 8 ltac:(lia))). rewrite forallb_forall in Hall.
  specialize (Hall r (In_range r 0 256 Hr)). rewrite forallb_forall in Hall.
  specialize (Hall k (In_range k 0 8 ltac:(lia))).
  destruct (Z.eqb_spec k n) as [Heq |]; [contradiction |]. simpl in Hall.
  apply andb_prop in Hall. destruct Hall as [Ht Hf].
  apply Bool.eqb_prop in Ht, Hf. now destruct v.
Qed.

Lemma frame_refl (e : Encoder) (start : Point) (img : image_RGBA) :
  well_formed img -> frame e start img img.
Proof.
  intros Hwf. split; [reflexivity |]. split; [exact Hwf |].
  intros x y. repeat split.
Qed.

Lemma encode_pixel_frame (e : Encoder) (msg : string) (start end_ : Point) (offset : Z)
    (img : image_RGBA) (x y : Z) (s s' : Steg.enc_state) :
  0 <= bit e <= 7 ->
  well_formed img ->
  frame e start img (Steg.e_img s) ->
  ends_in (Steg.encode_pixel e msg start end_ offset x y s) s' ->
  frame e start img (Steg.e_img s').
Proof.
  intros Hbit Hwf Hs Hstep. unfold Steg.encode_pixel in Hstep.
  destruct ((x <? X start) || (y <? Y start)) eqn:Hskip.
  { destruct Hstep as [Hstep | Hstep]; [| discriminate]. now inversion Hstep; subst. }
  destruct ((x =? X end_) && (y =? Y end_)).
  { destruct Hstep as [Hstep | Hstep]; [discriminate |]. now inversion Hstep; subst. }
  destruct (if Steg.e_i s mod 8 =? 0 then _ else _) as [tmp |];
    [| destruct Hstep; discriminate].
  unfold RGBA_RGBA in Hstep.
  destruct Hstep as [Hstep | Hstep]; [| discriminate]. inversion Hstep; subst; clear Hstep.
  simpl. destruct Hs as [Hrect [Hwf' Hpix]].
  split; [now rewrite Rect_Set_ |].
  split.
  { apply well_formed_Set_; [exact Hwf' |].
    unfold is_color. simpl. repeat split; apply uint8_is_byte. }
  intros x' y'. rewrite At_Set_.
  destruct (Hpix x' y') as [Hg [Hb [Ha [Hr Hleft]]]].
  destruct (point_In x y (Rect (Steg.e_img s)) && ((x' =? x) && (y' =? y))) eqn:Hhit.
  - apply andb_prop in Hhit. destruct Hhit as [_ Hhit].
    apply andb_prop in Hhit. destruct Hhit as [Hx Hy].
    apply Z.eqb_eq in Hx, Hy. subst x' y'.
    destruct (At_is_color img x y Hwf) as [_ [HG [HB HA]]].
    destruct (At_is_color (Steg.e_img s) x y Hwf') as [HR' _].
    simpl.
    split; [rewrite Hg; now apply uint8_widen |].
    split; [rewrite Hb; now apply uint8_widen |].
    split; [rewrite Ha; now apply uint8_widen |].
    split.
    + intros k Hk. rewrite <- (Hr k Hk).
      apply (write_bit_other_bits (bit e) (R (At (Steg.e_img s) x y)) k
               (load false tmp (Steg.e_i s mod 8)) Hbit HR' Hk).
    + apply orb_false_elim in Hskip. destruct Hskip as [Hx Hy].
      apply Z.ltb_ge in Hx, Hy. lia.
  - repeat split; assumption.
Qed.

Lemma encode_scan_frame (e : Encoder) (msg : string) (start end_ : Point)
    (img : image_RGBA) (s' : Steg.enc_state) :
  0 <= bit e <= 7 ->
  well_formed img ->
  ends_in (Steg.encode_scan e img msg start end_) s' ->
  frame e start img (Steg.e_img s').
Proof.
  intros Hbit Hwf Hrun. unfold Steg.encode_scan in Hrun.
  apply (scan_invariant (fun s => frame e start img (Steg.e_img s))) in Hrun.
  - exact Hrun.
  - intros x y s s1 Hs Hstep. eapply encode_pixel_frame; eassumption.
  - now apply frame_refl.
Qed.

(** X1: Every successful [Encode] read an RGBA image [img] from the resolved
    source path and wrote an image [img'] to the resolved destination path;
    for a bit position in [0,7] and 8-bit samples in [img], [img'] has the
    rectangle of [img], the green, blue and alpha samples of every pixel
    are those of [img], the red sample differs from that of [img] in the
    configured bit at most, and every pixel left of [start] or above it is
    the pixel of [img]. *)
Theorem Encode_frame
    (e : Encoder) (src dst msg : string) (start end_ : Point) (w w' : World) :
  call (Steg.Encode e src dst msg start) w = (Some (end_, None), w') ->
  exists srcA dstA img img',
    abs_path w src = Some srcA /\
    abs_path w dst = Some dstA /\
    files w srcA = Some (PNG (Image_RGBA img)) /\
    files w' dstA = Some (PNG (Image_RGBA img')) /\
    (0 <= bit e <= 7 -> well_formed img -> frame e start img img').
Proof.
  unfold Steg.Encode. destruct (len msg =? 0); [discriminate |].
  run_io.
  destruct (abs_path w src) as [srcA |] eqn:Hsrc; simpl; [| discriminate].
  destruct (abs_path w dst) as [dstA |] eqn:Hdst; simpl; [| discriminate].
  destruct (files w srcA) as [[[img |] |] |] eqn:Hfile; simpl; try discriminate.
  destruct (pointAtOffset (Bounds img) start (int_mul (len msg) 8)) as [end1 |];
    simpl; [| discriminate].
  destruct (inBounds (Bounds img) start); simpl; [| discriminate].
  destruct (inBounds (Bounds img) end1); simpl; [| discriminate].
  destruct (Steg.encode_scan e img msg start end1) as [s | s |] eqn:Hscan;
    simpl; try discriminate.
  - destruct (writable w dstA); simpl; [| discriminate].
    destruct (encodable w (Image_RGBA (Steg.e_img s))); simpl; [| discriminate].
    intros Hcall. inversion Hcall; subst; clear Hcall.
    exists srcA, dstA, img, (Steg.e_img s). simpl.
    rewrite String.eqb_refl.
    split; [reflexivity |]. split; [reflexivity |]. split; [exact Hfile |].
    split; [reflexivity |].
    intros Hbit Hwf. eapply encode_scan_frame; [exact Hbit | exact Hwf | left; exact Hscan].
  - destruct (writable w dstA); simpl; [| discriminate].
    destruct (encodable w (Image_RGBA (Steg.e_img s))); simpl; [| discriminate].
    intros Hcall. inversion Hcall; subst; clear Hcall.
    exists srcA, dstA, img, (Steg.e_img s). simpl.
    rewrite String.eqb_refl.
    split; [reflexivity |]. split; [reflexivity |]. split; [exact Hfile |].
    split; [reflexivity |].
    intros Hbit Hwf. eapply encode_scan_frame; [exact Hbit | exact Hwf | right; exact Hscan].
Qed.

(** The encoding of "Hi" from (8,0) on the 10-by-3 image. *)
Lemma Encode_frame_witness :
  exists srcA dstA img img',
    abs_path (world_with (black rect10x3)) "src.png" = Some srcA /\
    abs_path (world_with (black rect10x3)) "dst.png" = Some dstA /\
    files (world_with (black rect10x3)) srcA = Some (PNG (Image_RGBA img)) /\
    files (snd (call (Steg.Encode zeroEncoder "src.png" "dst.png" "Hi" (mkPoint 8 0))
                  (world_with (black rect10x3)))) dstA = Some (PNG (Image_RGBA img')) /\
    (0 <= bit zeroEncoder <= 7 -> well_formed img -> frame zeroEncoder (mkPoint 8 0) img img').
Proof.
  apply (Encode_frame zeroEncoder "src.png" "dst.png" "Hi" (mkPoint 8 0) (mkPoint 4 2)
           (world_with (black rect10x3))).
  vm_compute. reflexivity.
Defined.

(** ** Bytes of a message *)

Lemma byte_of_ascii_is_byte (a : ascii) : is_byte (byte_of_ascii a).
Proof.
  unfold is_byte, byte_of_ascii. pose proof (N_ascii_bounded a). lia.
Qed.

Lemma ascii_of_byte_of_ascii (a : ascii) : ascii_of_byte (byte_of_ascii a) = a.
Proof.
  unfold ascii_of_byte, byte. rewrite Z.mod_small by apply byte_of_ascii_is_byte.
  unfold byte_of_ascii. rewrite N2Z.id. apply ascii_N_embedding.
Qed.

Lemma get_in_range (s : string) (k : nat) :
  (k < String.length s)%nat -> exists a, String.get k s = Some a.
Proof.
  revert k. induction s as [| c s IH]; intros k Hk; simpl in Hk; [lia |].
  destruct k as [| k]; simpl; [now exists c |]. apply IH. lia.
Qed.

Lemma index_in_range (msg : string) (k : Z) :
  0 <= k < len msg ->
  exists a, String.get (Z.to_nat k) msg = Some a /\ index msg k = Some (byte_of_ascii a).
Proof.
  intros Hk. unfold index.
  destruct (Z.leb_spec 0 k); [| lia]. destruct (Z.ltb_spec k (len msg)); [| lia]. simpl.
  destruct (get_in_range msg (Z.to_nat k)) as [a Ha]; [unfold len in Hk; lia |].
  exists a. now rewrite Ha.
Qed.

Lemma byte_at_is_byte (msg : string) (k : Z) : is_byte (byte_at msg k).
Proof.
  unfold byte_at, index.
  destruct ((0 <=? k) && (k <? len msg)); [| unfold is_byte; lia].
  destruct (String.get (Z.to_nat k) msg) as [a |]; simpl;
    [apply byte_of_ascii_is_byte | unfold is_byte; lia].
Qed.

Lemma substring_snoc (s : string) (k : nat) (a : ascii) :
  String.get k s = Some a ->
  substring 0 (S k) s = (substring 0 k s ++ String a EmptyString)%string.
Proof.
  revert k. induction s as [| c s IH]; intros k Hget; simpl in Hget.
  - discriminate.
  - destruct k as [| k].
    + inversion Hget; subst. simpl. now destruct s.
    + simpl. f_equal. now apply IH.
Qed.

Lemma substring_all (s : string) : substring 0 (String.length s) s = s.
Proof. induction s as [| c s IH]; simpl; [reflexivity | now f_equal]. Qed.

Lemma prefix_snoc (msg : string) (k : Z) :
  0 <= k < len msg ->
  prefix (k + 1) msg = (prefix k msg ++ String (ascii_of_byte (byte_at msg k)) EmptyString)%string.
Proof.
  intros Hk. destruct (index_in_range msg k Hk) as [a [Hget Hidx]].
  unfold prefix, byte_at. rewrite Hidx.
  replace (Z.to_nat (k + 1)) with (S (Z.to_nat k)) by lia.
  rewrite (substring_snoc msg _ a Hget).
  now rewrite ascii_of_byte_of_ascii.
Qed.

Lemma prefix_all (msg : string) : prefix (len msg) msg = msg.
Proof. unfold prefix, len. rewrite Nat2Z.id. apply substring_all. Qed.

Lemma prefix_0 (msg : string) : prefix 0 msg = EmptyString.
Proof. unfold prefix. simpl. now destruct msg. Qed.

(** ** Bytes as [Decode] appends them *)

Lemma append_assoc (s1 s2 s3 : string) : ((s1 ++ s2) ++ s3 = s1 ++ (s2 ++ s3))%string.
Proof. induction s1 as [| c s1 IH]; simpl; [reflexivity | now f_equal]. Qed.

Lemma append_empty (s : string) : (s ++ EmptyString)%string = s.
Proof. induction s as [| c s IH]; simpl; [reflexivity | now f_equal]. Qed.

Lemma append_length (s1 s2 : string) :
  String.length (s1 ++ s2) = (String.length s1 + String.length s2)%nat.
Proof. induction s1 as [| c s1 IH]; simpl; [reflexivity | now f_equal]. Qed.

Lemma recode_app (s1 s2 : string) : recode (s1 ++ s2) = (recode s1 ++ recode s2)%string.
Proof.
  induction s1 as [| c s1 IH]; simpl; [reflexivity |].
  now rewrite IH, append_assoc.
Qed.

Lemma recode_prefix_snoc (msg : string) (k : Z) :
  0 <= k < len msg ->
  recode (prefix (k + 1) msg) =
    (recode (prefix k msg) ++ string_of_byte (byte_at msg k))%string.
Proof.
  intros Hk. rewrite prefix_snoc, recode_app by exact Hk. f_equal.
  simpl. rewrite append_empty. f_equal.
  unfold ascii_of_byte, byte_of_ascii.
  pose proof (byte_at_is_byte msg k) as Hb. unfold is_byte in Hb.
  unfold byte. rewrite Z.mod_small by (simpl; lia).
  rewrite N_ascii_embedding; [apply Z2N.id; lia |].
  change 256%N with (Z.to_N 256). apply Z2N.inj_lt; lia.
Qed.

(** One byte becomes one byte, itself, below 0x80 and two bytes from
    there on. *)
Lemma string_of_byte_length (n : Z) :
  String.length (string_of_byte n) = if n <? 128 then 1%nat else 2%nat.
Proof. unfold string_of_byte. now destruct (n <? 128). Qed.

Lemma recode_ascii_only (msg : string) : ascii_only msg = true -> recode msg = msg.
Proof.
  induction msg as [| a msg IH]; simpl; [reflexivity |].
  intros Hall. apply andb_prop in Hall. destruct Hall as [Ha Hrest].
  unfold string_of_byte. rewrite Ha. simpl.
  now rewrite ascii_of_byte_of_ascii, IH.
Qed.

Lemma recode_length (msg : string) : (String.length msg <= String.length (recode msg))%nat.
Proof.
  induction msg as [| a msg IH]; simpl; [lia |].
  rewrite append_length, string_of_byte_length.
  destruct (byte_of_ascii a <? 128); lia.
Qed.

Lemma recode_same_length (msg : string) :
  String.length (recode msg) = String.length msg -> ascii_only msg = true.
Proof.
  induction msg as [| a msg IH]; simpl; [reflexivity |].
  rewrite append_length, string_of_byte_length.
  pose proof (recode_length msg).
  destruct (byte_of_ascii a <? 128); simpl; [intros Hl; apply IH; lia | lia].
Qed.

(** ** The scans on a message that starts on a byte boundary *)

Lemma div_succ_same (t : Z) : (t + 1) mod 8 <> 0 -> (t + 1) / 8 = t / 8.
Proof. Z.div_mod_to_equations. lia. Qed.

Lemma mod_succ_same (t : Z) : (t + 1) mod 8 <> 0 -> (t + 1) mod 8 = t mod 8 + 1.
Proof. Z.div_mod_to_equations. lia. Qed.

Lemma div_succ_next (t : Z) : t mod 8 = 7 -> (t + 1) / 8 = t / 8 + 1 /\ (t + 1) mod 8 = 0.
Proof. Z.div_mod_to_equations. lia. Qed.

Lemma set_nth_length {T : Type} (n : nat) (v : T) (l : list T) :
  List.length (set_nth n v l) = List.length l.
Proof.
  revert n. induction l as [| h l IH]; intros [| n]; simpl; try reflexivity.
  now rewrite IH.
Qed.

(** Storing cell [n] extends by one cell the agreement of two buffers. *)
Lemma firstn_set_nth {T : Type} (n : nat) (v d : T) (l l' : list T) :
  (n < List.length l)%nat -> (n < List.length l')%nat ->
  firstn n l = firstn n l' ->
  v = nth n l' d ->
  firstn (S n) (set_nth n v l) = firstn (S n) l'.
Proof.
  revert v l l'. induction n as [| n IH]; intros v [| h l] [| h' l'] Hl Hl' Hfirst Hv;
    simpl in Hl, Hl', Hfirst, Hv; try lia.
  - simpl. now subst.
  - inversion Hfirst; subst h'.
    change (h :: firstn (S n) (set_nth n v l) = h :: firstn (S n) l').
    f_equal. apply IH; try lia; assumption.
Qed.

Section AlignedScan.
Variables (e : Encoder) (msg : string) (start end_ : Point) (W H : Z).

Let offset : Z := Y start * W + X start.
Let last : Z := offset + 8 * len msg.

Hypothesis Hbit : 0 <= bit e <= 7.
Hypothesis HW : 0 < W.
Hypothesis Hsize : W * H < 2 ^ 62.
Hypothesis Hstart : 0 <= X start < W /\ 0 <= Y start.
Hypothesis Halign : offset mod 8 = 0.
Hypothesis Hend : X end_ = last mod W /\ Y end_ = last / W.
Hypothesis Hlast : last < W * H.
Hypothesis Hcols : forall t, 0 <= t <= 8 * len msg -> X start <= (offset + t) mod W.

Lemma offset_nonneg : 0 <= offset.
Proof. unfold offset. nia. Qed.

Lemma len_nonneg : 0 <= len msg.
Proof. unfold len. lia. Qed.

(** Pixels before the start are skipped. *)
Lemma skipped_before_start (j : Z) :
  0 <= j < offset -> (j mod W <? X start) || (j / W <? Y start) = true.
Proof.
  intros Hj. apply orb_true_iff.
  destruct (Z.ltb_spec (j mod W) (X start)); [now left |].
  destruct (Z.ltb_spec (j / W) (Y start)); [now right |].
  exfalso. pose proof (Z.div_mod j W ltac:(lia)). unfold offset in Hj. nia.
Qed.

(** Pixels of the payload are not. *)
Lemma visited_from_start (t : Z) :
  0 <= t <= 8 * len msg ->
  ((offset + t) mod W <? X start) || ((offset + t) / W <? Y start) = false.
Proof.
  intros Ht. apply orb_false_iff. split; apply Z.ltb_ge.
  - now apply Hcols.
  - apply Z.div_le_lower_bound; [lia |]. unfold offset. nia.
Qed.

(** Only the pixel at offset [last] is the end. *)
Lemma end_only_at_last (j : Z) :
  0 <= j -> j <> last -> (j mod W =? X end_) && (j / W =? Y end_) = false.
Proof.
  intros Hj Hne. apply andb_false_iff.
  destruct (Z.eqb_spec (j mod W) (X end_)) as [Hx |]; [| now left].
  destruct (Z.eqb_spec (j / W) (Y end_)) as [Hy |]; [| now right].
  exfalso. apply Hne. destruct Hend as [Hex Hey].
  rewrite (Z.div_mod j W), (Z.div_mod last W) by lia. congruence.
Qed.

Lemma end_at_last : (last mod W =? X end_) && (last / W =? Y end_) = true.
Proof. destruct Hend as [Hex Hey]. rewrite Hex, Hey, !Z.eqb_refl. reflexivity. Qed.

Lemma payload_mod (t : Z) : (offset + t) mod 8 = t mod 8.
Proof.
  rewrite Z.add_mod, Halign by lia. simpl. apply Z.mod_mod. lia.
Qed.

Lemma payload_in_image (t : Z) :
  0 <= t < 8 * len msg ->
  point_In ((offset + t) mod W) ((offset + t) / W) (mkRect (mkPoint 0 0) (mkPoint W H)) = true.
Proof.
  intros Ht. pose proof offset_nonneg as Ho.
  unfold point_In. simpl.
  pose proof (Z.mod_pos_bound (offset + t) W HW).
  assert (0 <= (offset + t) / W) by (apply Z.div_pos; lia).
  assert ((offset + t) / W < H) by (apply Z.div_lt_upper_bound; unfold last in Hlast; lia).
  repeat (apply andb_true_iff; split); try apply Z.leb_le; try apply Z.ltb_lt; lia.
Qed.

Lemma payload_pixels_distinct (t t' : Z) :
  0 <= t -> 0 <= t' -> t' <> t ->
  ((offset + t') mod W =? (offset + t) mod W) && ((offset + t') / W =? (offset + t) / W) = false.
Proof.
  intros Ht Ht' Hne. apply andb_false_iff.
  destruct (Z.eqb_spec ((offset + t') mod W) ((offset + t) mod W)) as [Hx |]; [| now left].
  destruct (Z.eqb_spec ((offset + t') / W) ((offset + t) / W)) as [Hy |]; [| now right].
  exfalso. apply Hne.
  pose proof (Z.div_mod (offset + t) W ltac:(lia)).
  pose proof (Z.div_mod (offset + t') W ltac:(lia)). nia.
Qed.

(** *** [Encode] *)

Lemma encode_pixel_skips (j : Z) (s : Steg.enc_state) :
  0 <= j < offset ->
  Steg.encode_pixel e msg start end_ offset (j mod W) (j / W) s =
    Continue (Steg.mkEnc (Steg.e_img s) (Steg.e_tmp s) (uint_add (Steg.e_i s) 1)).
Proof.
  intros Hj. unfold Steg.encode_pixel. now rewrite skipped_before_start.
Qed.

Lemma encode_pixel_breaks (s : Steg.enc_state) :
  Steg.encode_pixel e msg start end_ offset (last mod W) (last / W) s = Break s.
Proof.
  unfold Steg.encode_pixel. unfold last at 1 2.
  rewrite visited_from_start by (pose proof len_nonneg; lia).
  fold last. now rewrite end_at_last.
Qed.

Lemma encode_pixel_writes (img0 : image_RGBA) (t : Z) (s : Steg.enc_state) :
  Rect img0 = mkRect (mkPoint 0 0) (mkPoint W H) ->
  0 <= t < 8 * len msg ->
  enc_inv e img0 W offset msg t s ->
  exists s',
    Steg.encode_pixel e msg start end_ offset ((offset + t) mod W) ((offset + t) / W) s =
      Continue s' /\
    enc_inv e img0 W offset msg (t + 1) s'.
Proof.
  intros Hrect Ht [Hi [HR [Hwf [Htmp [Hbits [Hcar Hunt]]]]]].
  pose proof offset_nonneg as Ho.
  unfold Steg.encode_pixel.
  rewrite visited_from_start by lia.
  rewrite end_only_at_last by (unfold last; lia).
  rewrite Hi, payload_mod.
  assert (Hsub : uint_sub (offset + t) offset / 8 = t / 8).
  { unfold uint_sub. replace (offset + t - offset) with t by lia.
    rewrite uint_small; [reflexivity | lia]. }
  rewrite Hsub.
  assert (Hk : 0 <= t / 8 < len msg) by (Z.div_mod_to_equations; lia).
  assert (Hloaded :
            (if t mod 8 =? 0
             then option_map (Steg.byteToBits (Steg.e_tmp s)) (index msg (t / 8))
             else Some (Steg.e_tmp s)) = Some (bits_of (byte_at msg (t / 8)))).
  { destruct (Z.eqb_spec (t mod 8) 0) as [Hz | Hnz].
    - destruct (index_in_range msg (t / 8) Hk) as [a [_ Hidx]].
      unfold byte_at. rewrite Hidx. simpl.
      now rewrite byteToBits_bits_of by (try apply byte_of_ascii_is_byte; assumption).
    - now rewrite Hbits. }
  rewrite Hloaded. unfold RGBA_RGBA. cbv beta iota zeta.
  eexists. split; [reflexivity |].
  set (x := (offset + t) mod W). set (y := (offset + t) / W).
  set (tmp := bits_of (byte_at msg (t / 8))).
  assert (Hin : point_In x y (Rect (Steg.e_img s)) = true).
  { rewrite HR, Hrect. now apply payload_in_image. }
  unfold enc_inv. simpl.
  split.
  { unfold uint_add. rewrite uint_small; [lia |]. unfold last in Hlast. lia. }
  split; [now rewrite Rect_Set_ |].
  split.
  { apply well_formed_Set_; [exact Hwf |].
    unfold is_color. simpl. repeat split; apply uint8_is_byte. }
  split; [apply bits_of_length, byte_at_is_byte |].
  split.
  { intros Hnz. now rewrite div_succ_same. }
  split.
  - intros t' Ht'. unfold hidden_bit. rewrite At_Set_, Hin. simpl.
    destruct (Z.eq_dec t' t) as [-> | Hne].
    + fold x y. rewrite !Z.eqb_refl. simpl.
      destruct (At_is_color (Steg.e_img s) x y Hwf) as [HRb _].
      unfold message_bit. fold tmp.
      apply (read_write_bit (bit e) (R (At (Steg.e_img s) x y))
               (load false tmp (t mod 8)) Hbit HRb).
    + fold x y. unfold x, y. rewrite payload_pixels_distinct by lia.
      apply Hcar. lia.
  - intros x' y' Hout. rewrite At_Set_, Hin. simpl.
    assert (Hmiss : (x' =? x) && (y' =? y) = false).
    { apply andb_false_iff.
      destruct (Z.eqb_spec x' x) as [Hx |]; [| now left].
      destruct (Z.eqb_spec y' y) as [Hy |]; [| now right].
      exfalso. apply (Hout t); [lia |]. now subst x' y'. }
    rewrite Hmiss. apply Hunt. intros t' Ht'. apply Hout. lia.
Qed.

Lemma height_pos : 0 < H.
Proof. pose proof offset_nonneg. pose proof len_nonneg. unfold last in Hlast. nia. Qed.

Lemma offsetFromMin_offset :
  offsetFromMin (mkRect (mkPoint 0 0) (mkPoint W H)) start = offset.
Proof.
  pose proof offset_nonneg. pose proof len_nonneg.
  rewrite offsetFromMin_at_origin; simpl;
    try reflexivity; try (unfold last, offset in *; lia).
  unfold row_major_offset. simpl. unfold offset. lia.
Qed.

(** The scan of [Encode] stops at the end pixel, and the payload pixels of
    the image it leaves hold the bits of the message. *)
Lemma encode_scan_carries (img0 : image_RGBA) :
  Rect img0 = mkRect (mkPoint 0 0) (mkPoint W H) ->
  well_formed img0 ->
  exists s,
    Steg.encode_scan e img0 msg start end_ = Break s /\
    Rect (Steg.e_img s) = Rect img0 /\
    well_formed (Steg.e_img s) /\
    carries e (Steg.e_img s) W offset msg (8 * len msg) /\
    untouched img0 (Steg.e_img s) W offset (8 * len msg).
Proof.
  intros Hrect Hwf.
  pose proof offset_nonneg as Ho. pose proof len_nonneg as Hl. pose proof height_pos as HH.
  unfold Steg.encode_scan, Bounds. rewrite Hrect, offsetFromMin_offset.
  rewrite scan_flat by (simpl; try reflexivity; lia). simpl.
  (* the pixels before the start *)
  destruct (for_each_range
              (fun j s => s = Steg.mkEnc img0 (repeat false 8) j)
              (fun j => Steg.encode_pixel e msg start end_ offset (j mod W) (j / W))
              0 offset Ho) with (s := Steg.mkEnc img0 (repeat false 8) 0)
    as [s1 [Hrun1 Hs1]]; [| reflexivity |].
  { intros j s Hj ->. rewrite encode_pixel_skips by lia. simpl.
    eexists. split; [reflexivity |]. f_equal.
    unfold uint_add. apply uint_small. unfold last in Hlast. lia. }
  (* the payload *)
  destruct (for_each_range
              (fun j s => enc_inv e img0 W offset msg (j - offset) s)
              (fun j => Steg.encode_pixel e msg start end_ offset (j mod W) (j / W))
              offset last ltac:(unfold last; lia)) with (s := s1)
    as [s2 [Hrun2 Hs2]].
  { intros j s Hj Hinv.
    destruct (encode_pixel_writes img0 (j - offset) s Hrect ltac:(unfold last in Hj; lia) Hinv)
      as [s' [Hstep Hinv']].
    replace (offset + (j - offset)) with j in Hstep by lia.
    exists s'. split; [exact Hstep |].
    now replace (j + 1 - offset) with (j - offset + 1) by lia. }
  { subst s1. unfold enc_inv. simpl. rewrite Z.sub_diag.
    split; [lia |]. split; [reflexivity |]. split; [exact Hwf |].
    split; [reflexivity |]. split; [intros Hnz; now contradiction Hnz |].
    split; [intros t' Ht'; lia | intros x y _; reflexivity]. }
  exists s2.
  replace (last - offset) with (8 * len msg) in Hs2 by (unfold last; lia).
  destruct Hs2 as [_ [HR [Hwf2 [_ [_ [Hcar Hunt]]]]]].
  split; [| split; [congruence | split; [exact Hwf2 | split; [exact Hcar | exact Hunt]]]].
  apply (for_each_range_break _ 0 last (W * H) _ s2 s2); [lia | |].
  - rewrite (range_split 0 offset last) by (unfold last; lia).
    rewrite for_each_app. simpl in Hrun1. now rewrite Hrun1.
  - apply encode_pixel_breaks.
Qed.

(** *** [Decode] *)

Lemma decode_pixel_skips (img : image_RGBA) (j : Z) (s : Steg.dec_state) :
  0 <= j < offset ->
  Steg.decode_pixel e img start end_ (j mod W) (j / W) s =
    Continue (Steg.mkDec (Steg.d_tmp s) (uint_add (Steg.d_i s) 1) (Steg.d_msg s)).
Proof.
  intros Hj. unfold Steg.decode_pixel. now rewrite skipped_before_start.
Qed.

Lemma decode_pixel_breaks (img : image_RGBA) (s : Steg.dec_state) :
  Steg.decode_pixel e img start end_ (last mod W) (last / W) s = Break s.
Proof.
  unfold Steg.decode_pixel. unfold last at 1 2.
  rewrite visited_from_start by (pose proof len_nonneg; lia).
  fold last. now rewrite end_at_last.
Qed.

Lemma decode_pixel_reads (img : image_RGBA) (t : Z) (s : Steg.dec_state) :
  carries e img W offset msg (8 * len msg) ->
  0 <= t < 8 * len msg ->
  dec_inv W offset msg t s ->
  exists s',
    Steg.decode_pixel e img start end_ ((offset + t) mod W) ((offset + t) / W) s =
      Continue s' /\
    dec_inv W offset msg (t + 1) s'.
Proof.
  intros Hcar Ht [Hi [Htmp [Hmsg Hfirst]]].
  pose proof offset_nonneg as Ho.
  unfold Steg.decode_pixel.
  rewrite visited_from_start by lia.
  rewrite end_only_at_last by (unfold last; lia).
  rewrite Hi, payload_mod.
  unfold RGBA_RGBA. cbv beta iota zeta.
  eexists. split; [reflexivity |].
  pose proof (Hcar t Ht) as Hv. unfold hidden_bit, read_bit in Hv.
  set (x := (offset + t) mod W) in *. set (y := (offset + t) / W) in *.
  set (b := byte_at msg (t / 8)) in *.
  assert (Hk : 0 <= t / 8 < len msg) by (Z.div_mod_to_equations; lia).
  assert (Hm : 0 <= t mod 8 < 8) by (apply Z.mod_pos_bound; lia).
  assert (Hbl : List.length (bits_of b) = 8%nat) by apply bits_of_length, byte_at_is_byte.
  assert (Hstore :
            (if Z.land (byte (widen (R (At img x y)))) (byte (pow 2 (bit e))) =? 0
             then store (Steg.d_tmp s) (t mod 8) false
             else store (Steg.d_tmp s) (t mod 8) true) =
              store (Steg.d_tmp s) (t mod 8) (message_bit msg t)).
  { rewrite <- Hv. now destruct (Z.land _ _ =? 0). }
  rewrite Hstore. clear Hstore.
  assert (Hnext :
            firstn (S (Z.to_nat (t mod 8))) (store (Steg.d_tmp s) (t mod 8) (message_bit msg t)) =
              firstn (S (Z.to_nat (t mod 8))) (bits_of b)).
  { unfold store. apply (firstn_set_nth _ _ false); try lia; [exact Hfirst | reflexivity]. }
  unfold dec_inv. simpl.
  split.
  { unfold uint_add. rewrite uint_small; [lia |]. unfold last in Hlast. lia. }
  split; [unfold store; now rewrite set_nth_length |].
  destruct (Z.eqb_spec (t mod 8) 7) as [Hlastbit | Hmore].
  - destruct (div_succ_next t Hlastbit) as [Hdiv Hmod]. rewrite Hdiv, Hmod. simpl.
    split; [| reflexivity].
    assert (Hfull : store (Steg.d_tmp s) (t mod 8) (message_bit msg t) = bits_of b).
    { replace (S (Z.to_nat (t mod 8))) with 8%nat in Hnext by lia.
      rewrite <- (firstn_all (bits_of b)), Hbl, <- Hnext.
      symmetry. apply firstn_all2. unfold store. rewrite set_nth_length. lia. }
    rewrite Hfull, bitsToByte_bits_of by apply byte_at_is_byte.
    rewrite Hmsg. symmetry. apply recode_prefix_snoc. exact Hk.
  - assert (Hnz : (t + 1) mod 8 <> 0) by (Z.div_mod_to_equations; lia).
    rewrite div_succ_same, mod_succ_same by exact Hnz.
    split; [exact Hmsg |].
    replace (Z.to_nat (t mod 8 + 1)) with (S (Z.to_nat (t mod 8))) by lia.
    exact Hnext.
Qed.

(** The scan of [Decode] over an image that carries the message stops at
    the end pixel with the message assembled. *)
Lemma decode_scan_returns (img : image_RGBA) :
  Rect img = mkRect (mkPoint 0 0) (mkPoint W H) ->
  carries e img W offset msg (8 * len msg) ->
  exists s, Steg.decode_scan e img start end_ = Break s /\ Steg.d_msg s = recode msg.
Proof.
  intros Hrect Hcar.
  pose proof offset_nonneg as Ho. pose proof len_nonneg as Hl. pose proof height_pos as HH.
  unfold Steg.decode_scan, Bounds. rewrite Hrect.
  rewrite scan_flat by (simpl; try reflexivity; lia).
  cbn [Max X Y].
  destruct (for_each_range
              (fun j s => s = Steg.mkDec (repeat false 8) j EmptyString)
              (fun j => Steg.decode_pixel e img start end_ (j mod W) (j / W))
              0 offset Ho) with (s := Steg.mkDec (repeat false 8) 0 EmptyString)
    as [s1 [Hrun1 Hs1]]; [| reflexivity |].
  { intros j s Hj ->. rewrite decode_pixel_skips by lia. simpl.
    eexists. split; [reflexivity |]. f_equal.
    unfold uint_add. apply uint_small. unfold last in Hlast. lia. }
  destruct (for_each_range
              (fun j s => dec_inv W offset msg (j - offset) s)
              (fun j => Steg.decode_pixel e img start end_ (j mod W) (j / W))
              offset last ltac:(unfold last; lia)) with (s := s1)
    as [s2 [Hrun2 Hs2]].
  { intros j s Hj Hinv.
    destruct (decode_pixel_reads img (j - offset) s Hcar
                ltac:(unfold last in Hj; lia) Hinv) as [s' [Hstep Hinv']].
    replace (offset + (j - offset)) with j in Hstep by lia.
    exists s'. split; [exact Hstep |].
    now replace (j + 1 - offset) with (j - offset + 1) by lia. }
  { subst s1. unfold dec_inv. simpl. rewrite Z.sub_diag.
    split; [lia |]. split; [reflexivity |]. split; [now rewrite prefix_0 | reflexivity]. }
  exists s2.
  replace (last - offset) with (8 * len msg) in Hs2 by (unfold last; lia).
  destruct Hs2 as [_ [_ [Hmsg _]]].
  split.
  - apply (for_each_range_break _ 0 last (W * H) _ s2 s2); [lia | |].
    + rewrite (range_split 0 offset last) by (unfold last; lia).
      now rewrite for_each_app, Hrun1.
    + apply decode_pixel_breaks.
  - rewrite Hmsg. replace (8 * len msg / 8) with (len msg) by (Z.div_mod_to_equations; lia).
    now rewrite prefix_all.
Qed.

End AlignedScan.

(** ** Round trip of a message that starts on a byte boundary *)

(** Where the end computed by [Encode] lies, for an image at the origin
    whose sides are PNG dimensions. *)
Lemma end_of_payload (r : Rectangle) (W H : Z) (start end_ : Point) (n : Z) :
  r = mkRect (mkPoint 0 0) (mkPoint W H) ->
  0 < W < 2 ^ 31 -> 0 < H < 2 ^ 31 ->
  0 < n < 2 ^ 58 ->
  inBounds r start = true ->
  pointAtOffset r start (int_mul n 8) = Some end_ ->
  inBounds r end_ = true ->
  let last := Y start * W + X start + 8 * n in
  (X end_ = last mod W /\ Y end_ = last / W) /\ last < W * H /\ Steg.before start end_ = true.
Proof.
  intros -> HW HH Hn Hstart Hend Hin last.
  apply inBounds_inside in Hstart, Hin. unfold inside in Hstart, Hin. simpl in Hstart, Hin.
  unfold int_mul in Hend. rewrite int_small in Hend by (unfold is_int; lia).
  destruct (pointAtOffset_advances (mkRect (mkPoint 0 0) (mkPoint W H)) start (n * 8))
    as [e' [He' [Hadv _]]]; simpl; try lia.
  rewrite Hend in He'. inversion He'; subst e'. clear He'.
  unfold row_major_offset in Hadv. simpl in Hadv. rewrite !Z.sub_0_r in Hadv.
  assert (Hlin : last = W * Y end_ + X end_) by (unfold last; lia).
  assert (Hxy : X end_ = last mod W /\ Y end_ = last / W).
  { split.
    - apply (Z.mod_unique_pos last W (Y end_)); lia.
    - apply (Z.div_unique_pos last W (Y end_) (X end_)); lia. }
  split; [exact Hxy |]. split; [nia |].
  unfold Steg.before.
  destruct (Z.geb_spec (Y start) (Y end_)) as [Hy |]; [| reflexivity].
  destruct (Z.gtb_spec (X start) (X end_)) as [Hx |]; [| reflexivity].
  exfalso. unfold last in Hlin. nia.
Qed.

(** The payload stays at or right of the start column when the message
    starts in column 0 or ends within the row. *)
Lemma payload_columns (W : Z) (start : Point) (n t : Z) :
  0 < W -> 0 <= X start < W -> 0 <= Y start ->
  X start = 0 \/ X start + 8 * n < W ->
  0 <= t <= 8 * n ->
  X start <= (Y start * W + X start + t) mod W.
Proof.
  intros HW Hx Hy Hrow Ht. destruct Hrow as [H0 | Hfit].
  - rewrite H0. apply Z.mod_pos_bound. lia.
  - replace (Y start * W + X start + t) with (X start + t + Y start * W) by lia.
    rewrite Z_mod_plus_full, Z.mod_small by lia. lia.
Qed.

(** What [Encode] writes and what [Decode] reads back, for a start on a
    byte boundary whose payload stays right of the start column. *)
Lemma aligned_encoding
    (e : Encoder) (src dst msg srcA dstA : string) (start end_ : Point)
    (img : image_RGBA) (W H : Z) (w : World) :
  0 <= bit e <= 7 ->
  abs_path w src = Some srcA ->
  abs_path w dst = Some dstA ->
  files w srcA = Some (PNG (Image_RGBA img)) ->
  writable w dstA = true ->
  (forall p, encodable w p = true) ->
  Rect img = mkRect (mkPoint 0 0) (mkPoint W H) ->
  0 < W < 2 ^ 31 -> 0 < H < 2 ^ 31 ->
  well_formed img ->
  0 < len msg < 2 ^ 58 ->
  inBounds (Rect img) start = true ->
  (Y start * W + X start) mod 8 = 0 ->
  X start = 0 \/ X start + 8 * len msg < W ->
  pointAtOffset (Rect img) start (int_mul (len msg) 8) = Some end_ ->
  inBounds (Rect img) end_ = true ->
  exists w' img',
    call (Steg.Encode e src dst msg start) w = (Some (end_, None), w') /\
    files w' dstA = Some (PNG (Image_RGBA img')) /\
    well_formed img' /\
    carries e img' W (Y start * W + X start) msg (8 * len msg) /\
    (forall x y, ~ in_payload W start (len msg) x y -> At img' x y = At img x y) /\
    fst (call (Steg.Decode e dst start end_) w') = Some (recode msg, None).
Proof.
  intros Hbit Hsrc Hdst Hfile Hwr Henc Hrect HW HH Hwf Hlen Hstart Halign Hrow
    Hend Hin.
  destruct (end_of_payload (Rect img) W H start end_ (len msg) Hrect HW HH Hlen Hstart Hend Hin)
    as [Hxy [Hlast Hbefore]].
  assert (Hst : 0 <= X start < W /\ 0 <= Y start).
  { apply inBounds_inside in Hstart. unfold inside in Hstart. rewrite Hrect in Hstart.
    simpl in Hstart. lia. }
  assert (Hsize : W * H < 2 ^ 62) by nia.
  assert (Hcols : forall t, 0 <= t <= 8 * len msg ->
                    X start <= (Y start * W + X start + t) mod W).
  { intros t Ht. apply (payload_columns W start (len msg) t); lia. }
  destruct (encode_scan_carries e msg start end_ W H Hbit ltac:(lia) Hsize Hst Halign Hxy
              Hlast Hcols img Hrect Hwf) as [s [Hscan [HR [Hwf' [Hcar Hunt]]]]].
  destruct (decode_scan_returns e msg start end_ W H ltac:(lia) Hsize Hst Halign Hxy
              Hlast Hcols (Steg.e_img s) ltac:(congruence) Hcar) as [s' [Hdscan Hmsg]].
  eexists. exists (Steg.e_img s).
  split; [| split; [| split; [exact Hwf' | split; [exact Hcar | split]]]].
  - unfold Steg.Encode.
    destruct (Z.eqb_spec (len msg) 0) as [H0 | _]; [lia |].
    run_io. rewrite Hsrc. simpl. rewrite Hdst. simpl. rewrite Hfile. simpl.
    unfold Bounds. rewrite Hend. simpl. rewrite Hstart, Hin. simpl.
    rewrite Hscan. simpl. rewrite Hwr. simpl. rewrite Henc. simpl. reflexivity.
  - simpl. now rewrite String.eqb_refl.
  - intros x y Hout. apply Hunt. intros t' Ht' [Hx Hy]. apply Hout.
    unfold in_payload.
    pose proof (Z.mod_pos_bound (Y start * W + X start + t') W ltac:(lia)).
    pose proof (Z.div_mod (Y start * W + X start + t') W ltac:(lia)).
    subst x y. lia.
  - unfold Steg.Decode. rewrite Hbefore. simpl.
    run_io. simpl. rewrite Hdst. simpl. rewrite String.eqb_refl. simpl.
    unfold Bounds. rewrite HR, Hstart, Hin. simpl.
    rewrite Hdscan. simpl. now rewrite Hmsg.
Qed.

(** X2: Round trip, where it holds: on an image at the origin, for a non-empty
    message of bytes below 0x80 whose start lies on a byte boundary of the
    row-major pixel order and either in column 0 or far enough from the end
    of its row for the whole message, [Encode] succeeds, the image it writes
    differs from the source in the [8 * len msg] pixels from [start] on
    only, and [Decode] over the start and the returned end gives the message
    back, for every bit position. *)
Theorem Encode_then_Decode_aligned
    (e : Encoder) (src dst msg srcA dstA : string) (start end_ : Point)
    (img : image_RGBA) (W H : Z) (w : World) :
  0 <= bit e <= 7 ->
  abs_path w src = Some srcA ->
  abs_path w dst = Some dstA ->
  files w srcA = Some (PNG (Image_RGBA img)) ->
  writable w dstA = true ->
  (forall p, encodable w p = true) ->
  Rect img = mkRect (mkPoint 0 0) (mkPoint W H) ->
  0 < W < 2 ^ 31 -> 0 < H < 2 ^ 31 ->
  well_formed img ->
  0 < len msg < 2 ^ 58 ->
  ascii_only msg = true ->
  inBounds (Rect img) start = true ->
  (Y start * W + X start) mod 8 = 0 ->
  X start = 0 \/ X start + 8 * len msg < W ->
  pointAtOffset (Rect img) start (int_mul (len msg) 8) = Some end_ ->
  inBounds (Rect img) end_ = true ->
  exists w' img',
    call (Steg.Encode e src dst msg start) w = (Some (end_, None), w') /\
    files w' dstA = Some (PNG (Image_RGBA img')) /\
    (forall x y, ~ in_payload W start (len msg) x y -> At img' x y = At img x y) /\
    fst (call (Steg.Decode e dst start end_) w') = Some (msg, None).
Proof.
  intros Hbit Hsrc Hdst Hfile Hwr Henc Hrect HW HH Hwf Hlen Hascii Hstart Halign Hrow
    Hend Hin.
  destruct (aligned_encoding e src dst msg srcA dstA start end_ img W H w Hbit Hsrc Hdst
              Hfile Hwr Henc Hrect HW HH Hwf Hlen Hstart Halign Hrow Hend Hin)
    as [w' [img' [Hcall [Hf [_ [_ [Hunt Hdec]]]]]]].
  exists w', img'. rewrite (recode_ascii_only msg Hascii) in Hdec.
  split; [exact Hcall | split; [exact Hf | split; [exact Hunt | exact Hdec]]].
Qed.

(** "Hi" from the origin of the 10-by-10 image, in bit 3. *)
Lemma Encode_then_Decode_aligned_witness :
  exists w' img',
    call (Steg.Encode (mkEncoder 3) "src.png" "dst.png" "Hi" (mkPoint 0 0))
      (world_with (black rect10)) = (Some (mkPoint 6 1, None), w') /\
    files w' "dst.png" = Some (PNG (Image_RGBA img')) /\
    (forall x y, ~ in_payload 10 (mkPoint 0 0) (len "Hi") x y ->
                 At img' x y = At (black rect10) x y) /\
    fst (call (Steg.Decode (mkEncoder 3) "dst.png" (mkPoint 0 0) (mkPoint 6 1)) w') =
      Some ("Hi"%string, None).
Proof.
  apply (Encode_then_Decode_aligned (mkEncoder 3) "src.png" "dst.png" "Hi" "src.png" "dst.png"
           (mkPoint 0 0) (mkPoint 6 1) (black rect10) 10 10 (world_with (black rect10))).
  - simpl. lia.
  - reflexivity.
  - reflexivity.
  - reflexivity.
  - reflexivity.
  - intros p. reflexivity.
  - reflexivity.
  - lia.
  - lia.
  - intros x y. unfold is_color, is_byte. simpl. lia.
  - unfold len. simpl. lia.
  - reflexivity.
  - reflexivity.
  - reflexivity.
  - left. reflexivity.
  - reflexivity.
  - reflexivity.
Defined.

(** ** [Decode] always returns *)

Lemma for_each_no_panic {S : Type} (body : Z -> S -> ctl S) (xs : list Z) (s : S) :
  (forall x s, body x s <> Panics) -> for_each body xs s <> Panics.
Proof.
  intros Hbody. revert s. induction xs as [| x xs IH]; intros s; simpl; [discriminate |].
  destruct (body x s) as [s1 | s1 |] eqn:Hstep; [apply IH | discriminate |].
  now destruct (Hbody x s).
Qed.

Lemma decode_scan_no_panic (e : Encoder) (img : image_RGBA) (start end_ : Point) :
  Steg.decode_scan e img start end_ <> Panics.
Proof.
  unfold Steg.decode_scan, scan. apply for_each_no_panic. intros y s.
  apply for_each_no_panic. intros x s0. unfold Steg.decode_pixel.
  destruct ((x <? X start) || (y <? Y start)); [discriminate |].
  destruct ((x =? X end_) && (y =? Y end_)); [discriminate |].
  unfold RGBA_RGBA. discriminate.
Qed.

(** X3: Whatever the world and the coordinates, [Decode] returns a message and
    an error value: no path through it panics. *)
Theorem Decode_returns (e : Encoder) (src : string) (start end_ : Point) (w : World) :
  exists r, fst (call (Steg.Decode e src start end_) w) = Some r.
Proof.
  unfold Steg.Decode. destruct (negb (Steg.before start end_)); [now eexists |].
  run_io.
  destruct (abs_path w src) as [srcA |]; simpl; [| now eexists].
  destruct (files w srcA) as [[[img |] |] |]; simpl; try now eexists.
  destruct (negb (inBounds (Bounds img) start)); simpl; [now eexists |].
  destruct (negb (inBounds (Bounds img) end_)); simpl; [now eexists |].
  pose proof (decode_scan_no_panic e img start end_) as Hscan.
  destruct (Steg.decode_scan e img start end_) as [s | s |]; simpl;
    [now eexists | now eexists | contradiction].
Qed.

(** ** Order of the bits *)

Lemma bits_of_msb_first_all :
  forallb
    (fun b =>
       forallb
         (fun i => Bool.eqb (nth (Z.to_nat i) (bits_of b) false) (Z.testbit b (7 - i)))
         (range 0 8))
    (range 0 256) = true.
Proof. vm_compute. reflexivity. Qed.

(** X6: [byteToBits] puts bit 7 of the byte in cell 0 and bit 0 in cell 7. *)
Lemma bits_of_msb_first (b i : Z) :
  is_byte b -> 0 <= i < 8 ->
  nth (Z.to_nat i) (bits_of b) false = Z.testbit b (7 - i).
Proof.
  intros Hb Hi. pose proof bits_of_msb_first_all as Hall.
  rewrite forallb_forall in Hall. specialize (Hall b (In_range b 0 256 Hb)).
  rewrite forallb_forall in Hall. specialize (Hall i (In_range i 0 8 Hi)).
  now apply Bool.eqb_prop.
Qed.

(** Cell 1 of 'H' (0x48) is its bit 6. *)
Lemma bits_of_msb_first_witness :
  nth (Z.to_nat 1) (bits_of 72) false = Z.testbit 72 (7 - 1).
Proof.
  apply (bits_of_msb_first 72 1).
  - unfold is_byte. lia.
  - lia.
Defined.

(** ** The older version at the same inputs *)

(** The scan of the older version is the same loop: it loses the message
    of C1, panics on the input of C2 and writes after the end on the input
    of C8. *)
Lemma legacy_scan_same_defects :
  (match call (Legacy.Encode zeroEncoder "src.png" "dst.png" "Hi" (mkPoint 2 0))
           (world_with (black rect10)) with
   | (Some (end_, None), w) =>
       fst (call (Legacy.Decode zeroEncoder "dst.png" (mkPoint 2 0) end_) w)
   | _ => None
   end = Some (String (ascii_of_byte 0) "H", None)) /\
  fst (call (Legacy.Encode zeroEncoder "src.png" "dst.png" "Hi" (mkPoint 8 0))
         (world_with (black rect10))) = None /\
  pixel_of_file
    (snd (call (Legacy.Encode zeroEncoder "src.png" "dst.png" "Hi" (mkPoint 8 0))
            (world_with (black rect10x3)))) "dst.png" 8 2 = Some (mkRGBA 1 0 0 255).
Proof. repeat split; vm_compute; reflexivity. Qed.

(** ** The older version computes what the documented one does *)

Lemma set_nth_map {T U : Type} (f : T -> U) (n : nat) (v : T) (l : list T) :
  set_nth n (f v) (map f l) = map f (set_nth n v l).
Proof.
  revert n. induction l as [| h l IH]; intros [| n]; simpl; try reflexivity.
  now rewrite IH.
Qed.

Lemma store_bit_byte (bits : list bool) (i : Z) (v : bool) :
  store (map bit_byte bits) i (bit_byte v) = map bit_byte (store bits i v).
Proof. unfold store. apply set_nth_map. Qed.

Lemma indices_map {T U : Type} (f : T -> U) (l : list T) : indices (map f l) = indices l.
Proof. unfold indices. now rewrite length_map. Qed.

Lemma load_bit_byte (bits : list bool) (i : Z) :
  (load 0 (map bit_byte bits) i =? 1) = load false bits i.
Proof.
  unfold load. change 0 with (bit_byte false). rewrite map_nth.
  now destruct (nth (Z.to_nat i) bits false).
Qed.

Lemma legacy_byteToBits_fold (ks : list Z) (bits : list bool) (b : Z) :
  fold_left
    (fun '(bits, b) i =>
       let pos := pow 2 (7 - i) in
       if b - pos >=? 0
       then (store bits i 1, byte_sub b (byte pos))
       else (store bits i 0, b))
    ks (map bit_byte bits, b) =
  (let '(bits', b') := fold_left
    (fun '(bits, b) i =>
       let pos := pow 2 (7 - i) in
       if b - pos >=? 0
       then (store bits i true, byte_sub b (byte pos))
       else (store bits i false, b))
    ks (bits, b) in (map bit_byte bits', b')).
Proof.
  set (fL := fun '(bits, b) i => _). set (fB := fun '(bits, b) i => _).
  assert (Hstep : forall bits b i,
            fL (map bit_byte bits, b) i =
              (let '(bits', b') := fB (bits, b) i in (map bit_byte bits', b'))).
  { intros bits0 b0 i. unfold fL, fB. cbv zeta.
    destruct (b0 - pow 2 (7 - i) >=? 0); unfold store.
    - change 1 with (bit_byte true). now rewrite set_nth_map.
    - change 0 with (bit_byte false). now rewrite set_nth_map. }
  revert bits b. induction ks as [| i ks IH]; intros bits b; cbn [fold_left]; [reflexivity |].
  rewrite Hstep. destruct (fB (bits, b) i) as [bits1 b1]. apply IH.
Qed.

(** On an 8-cell buffer the older [byteToBits] returns no error and leaves
    the bits of the documented one, as bytes. *)
Lemma legacy_byteToBits_same (bits : list bool) (b : Z) :
  List.length bits = 8%nat ->
  Legacy.byteToBits (map bit_byte bits) b = (map bit_byte (Steg.byteToBits bits b), None).
Proof.
  intros Hlen. unfold Legacy.byteToBits, Steg.byteToBits, Steg.byteToBits_loop.
  rewrite length_map, Hlen. simpl negb. cbv iota.
  rewrite indices_map, legacy_byteToBits_fold.
  now destruct (fold_left _ (indices bits) (bits, b)).
Qed.

Lemma legacy_bitsToByte_fold (ks : list Z) (bits : list bool) (acc : Z) :
  fold_left
    (fun b i =>
       let pos := pow 2 (7 - i) in
       if load 0 (map bit_byte bits) i =? 1 then byte_add b (byte pos) else b)
    ks acc =
  fold_left
    (fun b i =>
       let pos := pow 2 (7 - i) in
       if load false bits i then byte_add b (byte pos) else b)
    ks acc.
Proof.
  revert acc. induction ks as [| i ks IH]; intros acc; cbn [fold_left]; [reflexivity |].
  cbv zeta. rewrite load_bit_byte. apply IH.
Qed.

(** On an 8-cell buffer the older [bitsToByte] returns no error and the
    byte of the documented one. *)
Lemma legacy_bitsToByte_same (bits : list bool) :
  List.length bits = 8%nat ->
  Legacy.bitsToByte (map bit_byte bits) = (Steg.bitsToByte bits, None).
Proof.
  intros Hlen. unfold Legacy.bitsToByte, Steg.bitsToByte.
  rewrite length_map, Hlen. simpl negb. cbv iota.
  now rewrite indices_map, legacy_bitsToByte_fold.
Qed.

Lemma byteToBits_length (bits : list bool) (b : Z) :
  List.length (Steg.byteToBits bits b) = List.length bits.
Proof.
  unfold Steg.byteToBits, Steg.byteToBits_loop.
  set (f := fun '(bits, b) i => _).
  assert (Hstep : forall bits b i, List.length (fst (f (bits, b) i)) = List.length bits).
  { intros bits0 b0 i. unfold f. cbv zeta.
    destruct (b0 - pow 2 (7 - i) >=? 0); apply set_nth_length. }
  generalize (indices bits) as ks. intros ks. revert bits b.
  induction ks as [| i ks IH]; intros bits b; cbn [fold_left]; [reflexivity |].
  specialize (Hstep bits b i). destruct (f (bits, b) i) as [bits1 b1].
  rewrite IH. exact Hstep.
Qed.

Section Simulation.
Context {S T : Type} (f : S -> T) (P : S -> Prop).

Lemma for_each_simulation (body : Z -> S -> ctl S) (body' : Z -> T -> ctl T) (xs : list Z) :
  (forall x s, P s -> body' x (f s) = ctl_map f (body x s)) ->
  (forall x s s', P s -> ends_in (body x s) s' -> P s') ->
  forall s, P s -> for_each body' xs (f s) = ctl_map f (for_each body xs s).
Proof.
  intros Hsim Hinv. induction xs as [| x xs IH]; intros s Hs; simpl; [reflexivity |].
  rewrite (Hsim x s Hs).
  destruct (body x s) as [s1 | s1 |] eqn:Hstep; simpl; try reflexivity.
  apply IH. apply (Hinv x s s1 Hs). now left.
Qed.

Lemma scan_simulation (r : Rectangle) (body : Z -> Z -> S -> ctl S)
    (body' : Z -> Z -> T -> ctl T) :
  (forall x y s, P s -> body' x y (f s) = ctl_map f (body x y s)) ->
  (forall x y s s', P s -> ends_in (body x y s) s' -> P s') ->
  forall s, P s -> scan r body' (f s) = ctl_map f (scan r body s).
Proof.
  intros Hsim Hinv. unfold scan. apply for_each_simulation.
  - intros y s Hs. apply for_each_simulation; [intros x; apply Hsim | intros x; apply Hinv | exact Hs].
  - intros y. apply for_each_invariant. intros x. apply Hinv.
Qed.
End Simulation.

Lemma encode_pixel_keeps_buffer (e : Encoder) (msg : string) (start end_ : Point) (offset : Z)
    (x y : Z) (s s' : Steg.enc_state) :
  List.length (Steg.e_tmp s) = 8%nat ->
  ends_in (Steg.encode_pixel e msg start end_ offset x y s) s' ->
  List.length (Steg.e_tmp s') = 8%nat.
Proof.
  intros Hlen Hstep. unfold Steg.encode_pixel in Hstep.
  destruct ((x <? X start) || (y <? Y start)).
  { destruct Hstep as [Hstep | Hstep]; [| discriminate]. now inversion Hstep; subst. }
  destruct ((x =? X end_) && (y =? Y end_)).
  { destruct Hstep as [Hstep | Hstep]; [discriminate |]. now inversion Hstep; subst. }
  destruct (Steg.e_i s mod 8 =? 0).
  - destruct (index msg _) as [b |]; simpl in Hstep; [| destruct Hstep; discriminate].
    unfold RGBA_RGBA in Hstep.
    destruct Hstep as [Hstep | Hstep]; [| discriminate]. inversion Hstep; subst. simpl.
    now rewrite byteToBits_length.
  - unfold RGBA_RGBA in Hstep.
    destruct Hstep as [Hstep | Hstep]; [| discriminate]. now inversion Hstep; subst.
Qed.

Lemma legacy_encode_pixel_same (e : Encoder) (msg : string) (start end_ : Point) (offset : Z)
    (x y : Z) (s : Steg.enc_state) :
  List.length (Steg.e_tmp s) = 8%nat ->
  Legacy.encode_pixel e msg start end_ offset x y (legacy_enc s) =
    ctl_map legacy_enc (Steg.encode_pixel e msg start end_ offset x y s).
Proof.
  intros Hlen. unfold Legacy.encode_pixel, Steg.encode_pixel, legacy_enc.
  cbn [Legacy.e_img Legacy.e_tmp Legacy.e_i].
  destruct ((x <? X start) || (y <? Y start)); [reflexivity |].
  destruct ((x =? X end_) && (y =? Y end_)); [reflexivity |].
  destruct (Steg.e_i s mod 8 =? 0).
  - destruct (index msg _) as [b |]; cbn [option_map]; [| reflexivity].
    rewrite legacy_byteToBits_same by exact Hlen. cbn [fst].
    unfold RGBA_RGBA. cbv beta iota zeta. rewrite load_bit_byte. reflexivity.
  - unfold RGBA_RGBA. cbv beta iota zeta. rewrite load_bit_byte. reflexivity.
Qed.

(** The pixel loop of the older [Encode] ends as that of the documented
    one: same image, same counter, same panic. *)
Lemma legacy_encode_scan_same (e : Encoder) (img : image_RGBA) (msg : string)
    (start end_ : Point) :
  Legacy.encode_scan e img msg start end_ =
    ctl_map legacy_enc (Steg.encode_scan e img msg start end_).
Proof.
  unfold Legacy.encode_scan, Steg.encode_scan.
  change (Legacy.mkEnc img (repeat 0 8) 0)
    with (legacy_enc (Steg.mkEnc img (repeat false 8) 0)).
  apply (scan_simulation legacy_enc (fun s => List.length (Steg.e_tmp s) = 8%nat)).
  - intros x y s Hs. now apply legacy_encode_pixel_same.
  - intros x y s s' Hs Hstep. eapply encode_pixel_keeps_buffer; eassumption.
  - reflexivity.
Qed.

Lemma decode_pixel_keeps_buffer (e : Encoder) (img : image_RGBA) (start end_ : Point)
    (x y : Z) (s s' : Steg.dec_state) :
  List.length (Steg.d_tmp s) = 8%nat ->
  ends_in (Steg.decode_pixel e img start end_ x y s) s' ->
  List.length (Steg.d_tmp s') = 8%nat.
Proof.
  intros Hlen Hstep. unfold Steg.decode_pixel in Hstep.
  destruct ((x <? X start) || (y <? Y start)).
  { destruct Hstep as [Hstep | Hstep]; [| discriminate]. now inversion Hstep; subst. }
  destruct ((x =? X end_) && (y =? Y end_)).
  { destruct Hstep as [Hstep | Hstep]; [discriminate |]. now inversion Hstep; subst. }
  unfold RGBA_RGBA in Hstep.
  destruct Hstep as [Hstep | Hstep]; [| discriminate]. inversion Hstep; subst. simpl.
  destruct (Z.land _ _ =? 0); unfold store; now rewrite set_nth_length.
Qed.

Lemma legacy_decode_pixel_same (e : Encoder) (img : image_RGBA) (start end_ : Point)
    (x y : Z) (s : Steg.dec_state) :
  List.length (Steg.d_tmp s) = 8%nat ->
  Legacy.decode_pixel e img start end_ x y (legacy_dec s) =
    ctl_map legacy_dec (Steg.decode_pixel e img start end_ x y s).
Proof.
  intros Hlen. unfold Legacy.decode_pixel, Steg.decode_pixel, legacy_dec.
  cbn [Legacy.d_tmp Legacy.d_i Legacy.d_msg].
  destruct ((x <? X start) || (y <? Y start)); [reflexivity |].
  destruct ((x =? X end_) && (y =? Y end_)); [reflexivity |].
  unfold RGBA_RGBA. cbv beta iota zeta.
  pose proof (store_bit_byte (Steg.d_tmp s) (Steg.d_i s mod 8) false) as Hclear.
  pose proof (store_bit_byte (Steg.d_tmp s) (Steg.d_i s mod 8) true) as Hset.
  cbn [bit_byte] in Hclear, Hset.
  destruct (Z.land _ _ =? 0); cbn [ctl_map Steg.d_tmp Steg.d_i Steg.d_msg].
  - rewrite Hclear, legacy_bitsToByte_same
      by (unfold store; now rewrite set_nth_length).
    reflexivity.
  - rewrite Hset, legacy_bitsToByte_same
      by (unfold store; now rewrite set_nth_length).
    reflexivity.
Qed.

Lemma legacy_decode_scan_same (e : Encoder) (img : image_RGBA) (start end_ : Point) :
  Legacy.decode_scan e img start end_ =
    ctl_map legacy_dec (Steg.decode_scan e img start end_).
Proof.
  unfold Legacy.decode_scan, Steg.decode_scan.
  change (Legacy.mkDec (repeat 0 8) 0 EmptyString)
    with (legacy_dec (Steg.mkDec (repeat false 8) 0 EmptyString)).
  apply (scan_simulation legacy_dec (fun s => List.length (Steg.d_tmp s) = 8%nat)).
  - intros x y s Hs. now apply legacy_decode_pixel_same.
  - intros x y s s' Hs Hstep. eapply decode_pixel_keeps_buffer; eassumption.
  - reflexivity.
Qed.

(** X7: For a non-empty message the two versions of [Encode] return the same
    end and error (or panic alike) and leave the same world: the same calls
    made, the same file written. *)
Theorem legacy_Encode_same
    (e : Encoder) (src dst msg : string) (start : Point) (w : World) :
  len msg <> 0 ->
  call (Legacy.Encode e src dst msg start) w = call (Steg.Encode e src dst msg start) w.
Proof.
  intros Hlen. unfold Legacy.Encode, Steg.Encode.
  destruct (Z.eqb_spec (len msg) 0) as [H0 | _]; [contradiction |].
  run_io.
  destruct (abs_path w src) as [srcA |]; simpl; [| reflexivity].
  destruct (abs_path w dst) as [dstA |]; simpl; [| reflexivity].
  destruct (files w srcA) as [[[img |] |] |]; simpl; try reflexivity.
  destruct (pointAtOffset (Bounds img) start (int_mul (len msg) 8)) as [end_ |];
    simpl; [| reflexivity].
  destruct (inBounds (Bounds img) start); simpl; [| reflexivity].
  destruct (inBounds (Bounds img) end_); simpl; [| reflexivity].
  rewrite legacy_encode_scan_same.
  destruct (Steg.encode_scan e img msg start end_) as [s | s |]; reflexivity.
Qed.

Lemma legacy_Encode_same_witness :
  call (Legacy.Encode zeroEncoder "src.png" "dst.png" "Hi" (mkPoint 2 0)) (world_with (black rect10)) =
    call (Steg.Encode zeroEncoder "src.png" "dst.png" "Hi" (mkPoint 2 0)) (world_with (black rect10)).
Proof.
  apply (legacy_Encode_same zeroEncoder "src.png" "dst.png" "Hi" (mkPoint 2 0)).
  discriminate.
Defined.

(** X8: Where the older ordering test lets the coordinates through, the two
    versions of [Decode] return the same message and error and leave the
    same world. *)
Theorem legacy_Decode_same
    (e : Encoder) (src : string) (start end_ : Point) (w : World) :
  Legacy.before start end_ = true ->
  call (Legacy.Decode e src start end_) w = call (Steg.Decode e src start end_) w.
Proof.
  intros Hbefore. unfold Legacy.Decode, Steg.Decode.
  assert (Hb : Steg.before start end_ = true).
  { destruct (Steg.before start end_) eqn:Hs; [reflexivity |].
    apply before_false_iff in Hs.
    assert (Hl : Legacy.before start end_ = false) by (apply legacy_before_false_iff; lia).
    congruence. }
  rewrite Hb, Hbefore. simpl negb. cbv iota.
  run_io.
  destruct (abs_path w src) as [srcA |]; simpl; [| reflexivity].
  destruct (files w srcA) as [[[img |] |] |]; simpl; try reflexivity.
  destruct (inBounds (Bounds img) start); simpl; [| reflexivity].
  destruct (inBounds (Bounds img) end_); simpl; [| reflexivity].
  rewrite legacy_decode_scan_same.
  destruct (Steg.decode_scan e img start end_) as [s | s |]; reflexivity.
Qed.

Lemma legacy_Decode_same_witness :
  call (Legacy.Decode zeroEncoder "src.png" (mkPoint 2 0) (mkPoint 8 1)) (world_with (black rect10)) =
    call (Steg.Decode zeroEncoder "src.png" (mkPoint 2 0) (mkPoint 8 1)) (world_with (black rect10)).
Proof.
  apply (legacy_Decode_same zeroEncoder "src.png" (mkPoint 2 0) (mkPoint 8 1)).
  reflexivity.
Defined.

(** ** What the two entry points do to the file system *)

Lemma files_write_file_other (w : World) (path q : string) (f : file) :
  q <> path -> files (write_file path f w) q = files w q.
Proof.
  intros Hne. simpl. destruct (String.eqb_spec q path); [contradiction | reflexivity].
Qed.

(** X9: Whatever [Encode] returns, and also when it panics, every file other
    than the resolved destination is as it was: the source is only read. *)
Theorem Encode_touches_only_destination
    (e : Encoder) (src dst msg q : string) (start : Point) (w : World) :
  abs_path w dst <> Some q ->
  files (snd (call (Steg.Encode e src dst msg start) w)) q = files w q.
Proof.
  intros Hq. unfold Steg.Encode. destruct (len msg =? 0); [reflexivity |].
  run_io.
  destruct (abs_path w src) as [srcA |]; simpl; [| reflexivity].
  destruct (abs_path w dst) as [dstA |]; simpl; [| reflexivity].
  assert (Hne : q <> dstA) by congruence.
  destruct (files w srcA) as [[[img |] |] |]; simpl; try reflexivity.
  destruct (pointAtOffset (Bounds img) start (int_mul (len msg) 8)) as [end_ |];
    simpl; [| reflexivity].
  destruct (inBounds (Bounds img) start); simpl; [| reflexivity].
  destruct (inBounds (Bounds img) end_); simpl; [| reflexivity].
  destruct (Steg.encode_scan e img msg start end_) as [s | s |]; simpl; try reflexivity.
  - destruct (writable w dstA); simpl; [| reflexivity].
    destruct (encodable w (Image_RGBA (Steg.e_img s))); simpl;
      destruct (String.eqb_spec q dstA); try contradiction; reflexivity.
  - destruct (writable w dstA); simpl; [| reflexivity].
    destruct (encodable w (Image_RGBA (Steg.e_img s))); simpl;
      destruct (String.eqb_spec q dstA); try contradiction; reflexivity.
Qed.

(** After an encoding to [dst.png], [src.png] still holds the image it held. *)
Lemma Encode_touches_only_destination_witness :
  files (snd (call (Steg.Encode zeroEncoder "src.png" "dst.png" "Hi" (mkPoint 0 0))
                (world_with (black rect10)))) "src.png" =
    files (world_with (black rect10)) "src.png".
Proof.
  apply (Encode_touches_only_destination zeroEncoder "src.png" "dst.png" "Hi" "src.png"
           (mkPoint 0 0) (world_with (black rect10))).
  simpl. discriminate.
Defined.

(** X10: [Decode] creates and writes nothing: whatever it returns, the files are
    as they were, and the calls it made are path resolutions, opens and
    decodes only. *)
Theorem Decode_reads_only (e : Encoder) (src : string) (start end_ : Point) (w : World) :
  let w' := snd (call (Steg.Decode e src start end_) w) in
  files w' = files w /\
  exists calls,
    trace w' = calls ++ trace w /\
    forall path, ~ In (io_Create path) calls /\ ~ In (io_Encode path) calls.
Proof.
  unfold Steg.Decode. destruct (negb (Steg.before start end_)).
  { simpl. split; [reflexivity |]. exists []. split; [reflexivity |]. intros p. now split. }
  run_io.
  assert (Hok : forall calls : list io_event,
            Forall (fun ev => match ev with io_Create _ | io_Encode _ => False | _ => True end)
              calls ->
            forall path, ~ In (io_Create path) calls /\ ~ In (io_Encode path) calls).
  { intros calls Hall p. rewrite Forall_forall in Hall.
    split; intros Hin; apply (Hall _ Hin). }
  destruct (abs_path w src) as [srcA |]; simpl.
  2: { split; [reflexivity |]. exists [io_Abs src]. split; [reflexivity |].
       apply Hok. repeat constructor. }
  destruct (files w srcA) as [[[img |] |] |]; simpl.
  - destruct (negb (inBounds (Bounds img) start)); simpl;
      [| destruct (negb (inBounds (Bounds img) end_)); simpl;
         [| destruct (Steg.decode_scan e img start end_); simpl]];
      (split; [reflexivity |]);
      exists [io_Decode; io_Open srcA; io_Abs src]; (split; [reflexivity |]);
      apply Hok; repeat constructor.
  - split; [reflexivity |]. exists [io_Decode; io_Open srcA; io_Abs src].
    split; [reflexivity |]. apply Hok. repeat constructor.
  - split; [reflexivity |]. exists [io_Decode; io_Open srcA; io_Abs src].
    split; [reflexivity |]. apply Hok. repeat constructor.
  - split; [reflexivity |]. exists [io_Open srcA; io_Abs src].
    split; [reflexivity |]. apply Hok. repeat constructor.
Qed.

(** ** Where a message ends *)

(** [pointAtOffset] without wrap-around: whole rows first, then the rest of
    the offset along the row, with one more row when that passes
    [r.Max.X]. *)
Lemma pointAtOffset_small (r : Rectangle) (p : Point) (offset : Z) :
  X (Min r) <= X p < X (Max r) ->
  - 2 ^ 61 <= X (Min r) -> X (Max r) <= 2 ^ 61 ->
  - 2 ^ 61 <= Y p <= 2 ^ 61 ->
  0 <= offset <= 2 ^ 61 ->
  pointAtOffset r p offset =
    Some (if X p + offset mod (X (Max r) - X (Min r)) >? X (Max r)
          then mkPoint (X (Min r) + (offset mod (X (Max r) - X (Min r)) - (X (Max r) - X p)))
                 (Y p + offset / (X (Max r) - X (Min r)) + 1)
          else mkPoint (X p + offset mod (X (Max r) - X (Min r)))
                 (Y p + offset / (X (Max r) - X (Min r)))).
Proof.
  intros Hcol Hmin Hmax Hy Hoff.
  unfold pointAtOffset, int_div, int_add, int_sub, int_mul.
  set (W := X (Max r) - X (Min r)).
  assert (HW : 0 < W) by (unfold W; lia).
  assert (HW' : W <= 2 ^ 62) by (unfold W; lia).
  rewrite (int_small W) by (unfold is_int; lia).
  destruct (Z.eqb_spec W 0) as [H0 | _]; [lia |].
  rewrite Z.quot_div_nonneg by lia.
  pose proof (Z.div_mod offset W ltac:(lia)) as Hdm.
  pose proof (Z.mod_pos_bound offset W HW) as Hrem.
  assert (Hq : 0 <= offset / W <= offset).
  { split; [apply Z.div_pos; lia |]. apply Z.div_le_upper_bound; nia. }
  set (q := offset / W) in *. set (rem := offset mod W) in *.
  assert (Hprod : q * W = offset - rem) by lia.
  rewrite (int_small q) by (unfold is_int; lia).
  rewrite Hprod.
  rewrite (int_small (offset - rem)) by (unfold is_int; lia).
  replace (offset - (offset - rem)) with rem by lia.
  rewrite (int_small rem) by (unfold is_int; lia).
  rewrite (int_small (Y p + q)) by (unfold is_int; lia).
  rewrite (int_small (X p + rem)) by (unfold is_int; lia).
  destruct (Z.gtb_spec (X p + rem) (X (Max r))) as [Hwrap | Hfit]; [| reflexivity].
  rewrite (int_small (X (Max r) - X p)) by (unfold is_int; lia).
  rewrite (int_small (rem - _)) by (unfold is_int; lia).
  rewrite (int_small (Y p + q + 1)) by (unfold is_int; lia).
  rewrite (int_small (X (Min r) + _)) by (unfold is_int; lia).
  reflexivity.
Qed.

(** X11: From a point in a column of the rectangle, [pointAtOffset] returns the
    point [offset] pixels further in row-major order, never above the
    starting row.  Its column can be [r.Max.X], one past the last column:
    that is so exactly when the pixels run to the end of a row, and the
    point is then outside the rectangle although the next pixel in order
    is the first of the next row. *)
Theorem pointAtOffset_row_major (r : Rectangle) (p : Point) (offset : Z) :
  X (Min r) <= X p < X (Max r) ->
  - 2 ^ 61 <= X (Min r) -> X (Max r) <= 2 ^ 61 ->
  - 2 ^ 61 <= Y p <= 2 ^ 61 ->
  0 <= offset <= 2 ^ 61 ->
  exists e,
    pointAtOffset r p offset = Some e /\
    row_major_offset r e = row_major_offset r p + offset /\
    Y p <= Y e /\
    X (Min r) <= X e <= X (Max r) /\
    (X e = X (Max r) <-> X p + offset mod (X (Max r) - X (Min r)) = X (Max r)) /\
    (offset = 0 -> e = p).
Proof.
  intros Hcol Hmin Hmax Hy Hoff.
  rewrite (pointAtOffset_small r p offset Hcol Hmin Hmax Hy Hoff).
  eexists. split; [reflexivity |].
  unfold row_major_offset.
  set (W := X (Max r) - X (Min r)).
  assert (HW : 0 < W) by (unfold W; lia).
  pose proof (Z.div_mod offset W ltac:(lia)) as Hdm.
  pose proof (Z.mod_pos_bound offset W HW) as Hrem.
  assert (Hq : 0 <= offset / W) by (apply Z.div_pos; lia).
  destruct (Z.gtb_spec (X p + offset mod W) (X (Max r))) as [Hwrap | Hfit]; simpl.
  - split; [unfold W in *; nia |]. split; [lia |]. split; [unfold W in *; lia |].
    split; [unfold W in *; lia |].
    intros H0. subst offset. rewrite Z.mod_0_l in Hwrap by lia. lia.
  - split; [nia |]. split; [lia |]. split; [lia |]. split; [lia |].
    intros H0. subst offset. rewrite Z.mod_0_l, Z.div_0_l by lia.
    destruct p as [px py]. simpl. f_equal; lia.
Qed.

(** On the 10-by-10 rectangle, 8 pixels from (2,0) end at column 10. *)
Lemma pointAtOffset_row_major_witness :
  exists e,
    pointAtOffset rect10 (mkPoint 2 0) 8 = Some e /\
    row_major_offset rect10 e = row_major_offset rect10 (mkPoint 2 0) + 8 /\
    Y (mkPoint 2 0) <= Y e /\
    X (Min rect10) <= X e <= X (Max rect10) /\
    (X e = X (Max rect10) <->
     X (mkPoint 2 0) + 8 mod (X (Max rect10) - X (Min rect10)) = X (Max rect10)) /\
    (8 = 0 -> e = mkPoint 2 0).
Proof.
  apply (pointAtOffset_row_major rect10 (mkPoint 2 0) 8); simpl; lia.
Defined.

(** X12: A message whose last bit falls on the last pixel of a row is rejected,
    whatever room the rows below leave: the end is computed in column
    [Max.X], outside the rectangle. *)
Theorem Encode_rejects_row_end
    (e : Encoder) (src dst msg srcA dstA : string) (start : Point)
    (img : image_RGBA) (W H : Z) (w : World) :
  abs_path w src = Some srcA ->
  abs_path w dst = Some dstA ->
  files w srcA = Some (PNG (Image_RGBA img)) ->
  Rect img = mkRect (mkPoint 0 0) (mkPoint W H) ->
  0 < W < 2 ^ 31 -> 0 < H < 2 ^ 31 ->
  0 < len msg < 2 ^ 58 ->
  inBounds (Rect img) start = true ->
  X start + (8 * len msg) mod W = W ->
  call (Steg.Encode e src dst msg start) w =
    (Some (mkPoint W (Y start + 8 * len msg / W), Some (errors_New "end point out of bounds")),
     loaded w src dst srcA img).
Proof.
  intros Hsrc Hdst Hfile Hrect HW HH Hlen Hstart Hrow.
  pose proof Hstart as Hin. apply inBounds_inside in Hin. unfold inside in Hin.
  rewrite Hrect in Hin. simpl in Hin.
  assert (Hend : pointAtOffset (Rect img) start (int_mul (len msg) 8) =
                   Some (mkPoint W (Y start + 8 * len msg / W))).
  { unfold int_mul. rewrite int_small by (unfold is_int; lia).
    rewrite pointAtOffset_small by (try rewrite Hrect; simpl; lia).
    rewrite Hrect. simpl. rewrite !Z.sub_0_r. rewrite (Z.mul_comm (len msg) 8).
    destruct (Z.gtb_spec (X start + (8 * len msg) mod W) W); [lia |].
    now rewrite Hrow. }
  assert (Hout : inBounds (Rect img) (mkPoint W (Y start + 8 * len msg / W)) = false).
  { rewrite Hrect. unfold inBounds. simpl.
    destruct (Z.ltb_spec W 0); [reflexivity |].
    destruct (_ <? 0); [reflexivity |].
    destruct (Z.geb_spec W W); [reflexivity | lia]. }
  remember (mkPoint W (Y start + 8 * len msg / W)) as end_ eqn:Hdef.
  unfold Steg.Encode.
  destruct (Z.eqb_spec (len msg) 0) as [H0 | _]; [lia |].
  run_io. rewrite Hsrc. simpl. rewrite Hdst. simpl. rewrite Hfile. simpl.
  unfold Bounds. rewrite Hend. simpl. rewrite Hstart, Hout. reflexivity.
Qed.

(** One byte from (2,0) on the 10-by-10 image: pixels (2,0) to (9,0) would
    hold it, and 9 rows are free below. *)
Lemma Encode_rejects_row_end_witness :
  call (Steg.Encode zeroEncoder "src.png" "dst.png" "A" (mkPoint 2 0))
    (world_with (black rect10)) =
    (Some (mkPoint 10 (0 + 8 * len "A" / 10), Some (errors_New "end point out of bounds")),
     loaded (world_with (black rect10)) "src.png" "dst.png" "src.png" (black rect10)).
Proof.
  apply (Encode_rejects_row_end zeroEncoder "src.png" "dst.png" "A" "src.png" "dst.png"
           (mkPoint 2 0) (black rect10) 10 10 (world_with (black rect10))).
  - reflexivity.
  - reflexivity.
  - reflexivity.
  - reflexivity.
  - lia.
  - lia.
  - unfold len. simpl. lia.
  - reflexivity.
  - reflexivity.
Defined.

(** X13: What a successful [Encode] tells its caller, on an image at the origin
    with PNG dimensions: the message was not empty, the start and the
    returned end are pixels of the image, the end is the pixel [8 * len msg]
    places after the start in row-major order (so the message fits before
    the last pixel), and the pair passes the ordering check of [Decode]. *)
Theorem Encode_success_bounds
    (e : Encoder) (src dst msg srcA : string) (start end_ : Point)
    (img : image_RGBA) (W H : Z) (w w' : World) :
  abs_path w src = Some srcA ->
  files w srcA = Some (PNG (Image_RGBA img)) ->
  Rect img = mkRect (mkPoint 0 0) (mkPoint W H) ->
  0 < W < 2 ^ 31 -> 0 < H < 2 ^ 31 ->
  len msg < 2 ^ 58 ->
  call (Steg.Encode e src dst msg start) w = (Some (end_, None), w') ->
  0 < len msg /\
  inside (Rect img) start /\
  inside (Rect img) end_ /\
  Y end_ * W + X end_ = Y start * W + X start + 8 * len msg /\
  Y start * W + X start + 8 * len msg < W * H /\
  Steg.before start end_ = true.
Proof.
  intros Hsrc Hfile Hrect HW HH Hlen.
  remember (8 * len msg) as bits eqn:Hbits.
  unfold Steg.Encode.
  destruct (Z.eqb_spec (len msg) 0) as [H0 | Hne]; [discriminate |].
  assert (Hpos : 0 < len msg) by (unfold len in *; lia).
  run_io. rewrite Hsrc. simpl.
  destruct (abs_path w dst) as [dstA |]; simpl; [| discriminate].
  rewrite Hfile. simpl. unfold Bounds.
  destruct (pointAtOffset (Rect img) start (int_mul (len msg) 8)) as [end1 |] eqn:Hend;
    simpl; [| discriminate].
  destruct (inBounds (Rect img) start) eqn:Hstart; simpl; [| discriminate].
  destruct (inBounds (Rect img) end1) eqn:Hin; simpl; [| discriminate].
  intros Hcall.
  assert (Heq : end1 = end_).
  { destruct (Steg.encode_scan e img msg start end1) as [s | s |]; simpl in Hcall;
      try discriminate;
      (destruct (writable w dstA); simpl in Hcall; [| discriminate]);
      (destruct (encodable w (Image_RGBA (Steg.e_img s))); simpl in Hcall; [| discriminate]);
      now inversion Hcall. }
  subst end1 bits. clear Hcall.
  destruct (end_of_payload (Rect img) W H start end_ (len msg) Hrect HW HH
              ltac:(lia) Hstart Hend Hin) as [[Hx Hy] [Hlast Hbefore]].
  split; [exact Hpos |].
  split; [now apply inBounds_inside |].
  split; [now apply inBounds_inside |].
  split; [| split; [exact Hlast | exact Hbefore]].
  rewrite Hx, Hy.
  pose proof (Z.div_mod (Y start * W + X start + 8 * len msg) W ltac:(lia)). lia.
Qed.

(** "Hi" from the origin of the 10-by-10 image ends at (6,1). *)
Lemma Encode_success_bounds_witness :
  0 < len "Hi" /\
  inside (Rect (black rect10)) (mkPoint 0 0) /\
  inside (Rect (black rect10)) (mkPoint 6 1) /\
  Y (mkPoint 6 1) * 10 + X (mkPoint 6 1) =
    Y (mkPoint 0 0) * 10 + X (mkPoint 0 0) + 8 * len "Hi" /\
  Y (mkPoint 0 0) * 10 + X (mkPoint 0 0) + 8 * len "Hi" < 10 * 10 /\
  Steg.before (mkPoint 0 0) (mkPoint 6 1) = true.
Proof.
  apply (Encode_success_bounds zeroEncoder "src.png" "dst.png" "Hi" "src.png"
           (mkPoint 0 0) (mkPoint 6 1) (black rect10) 10 10 (world_with (black rect10))
           (snd (call (Steg.Encode zeroEncoder "src.png" "dst.png" "Hi" (mkPoint 0 0))
                   (world_with (black rect10))))).
  - reflexivity.
  - reflexivity.
  - reflexivity.
  - lia.
  - lia.
  - unfold len. simpl. lia.
  - vm_compute. reflexivity.
Defined.

(** ** A scan whose end is its start *)

Section ScanToStart.
Context {S : Type}.
Variables (r : Rectangle) (body : Z -> Z -> S -> ctl S) (p : Point).
Variables (step : S -> S) (P : S -> Prop).

Hypothesis Hin : inside r p.
Hypothesis Hskip : forall x y s, x < X p \/ y < Y p -> body x y s = Continue (step s).
Hypothesis Hbreak : forall s, body (X p) (Y p) s = Break s.
Hypothesis Hstep : forall s, P s -> P (step s).

Lemma for_each_continues (f : Z -> S -> ctl S) (xs : list Z) :
  (forall x s, In x xs -> P s -> exists s', f x s = Continue s' /\ P s') ->
  forall s, P s -> exists s', for_each f xs s = Continue s' /\ P s'.
Proof.
  induction xs as [| x xs IH]; intros Hf s Hs; simpl.
  - exists s. now split.
  - destruct (Hf x s ltac:(now left) Hs) as [s1 [Hx Hs1]]. rewrite Hx.
    apply IH; [| exact Hs1]. intros x' s' Hx'. apply Hf. now right.
Qed.

(** Every pixel before [p] is skipped and the loops are left at [p]. *)
Lemma scan_breaks_at_start (s : S) :
  P s -> exists s', scan r body s = Break s' /\ P s'.
Proof.
  intros Hs. destruct Hin as [Hx Hy]. unfold scan.
  rewrite (range_split (Y (Min r)) (Y p) (Y (Max r))) by lia.
  rewrite for_each_app.
  destruct (for_each_continues
              (fun y => for_each (fun x => body x y) (range (X (Min r)) (X (Max r))))
              (range (Y (Min r)) (Y p))) with (s := s) as [s1 [Hrows Hs1]]; [| exact Hs |].
  { intros y s0 Hyr Hs0. apply range_In in Hyr.
    apply for_each_continues; [| exact Hs0].
    intros x s' _ Hs'. exists (step s'). split; [apply Hskip; lia | now apply Hstep]. }
  rewrite Hrows. rewrite (range_cons (Y p)) by lia. cbn [for_each].
  rewrite (range_split (X (Min r)) (X p) (X (Max r))) by lia.
  rewrite for_each_app.
  destruct (for_each_continues (fun x => body x (Y p)) (range (X (Min r)) (X p)))
    with (s := s1) as [s2 [Hcols Hs2]]; [| exact Hs1 |].
  { intros x s' Hxr Hs'. apply range_In in Hxr.
    exists (step s'). split; [apply Hskip; lia | now apply Hstep]. }
  rewrite Hcols. rewrite (range_cons (X p)) by lia. cbn [for_each].
  rewrite Hbreak. exists s2. now split.
Qed.

End ScanToStart.

(** X14: Wherever in the image the point lies, [Decode] from a point to itself
    returns the empty message and no error, although the point does not
    precede itself; the older version returns the ordering error. *)
Theorem Decode_start_equal_end
    (e : Encoder) (src srcA : string) (p : Point) (img : image_RGBA) (w : World) :
  abs_path w src = Some srcA ->
  files w srcA = Some (PNG (Image_RGBA img)) ->
  inBounds (Bounds img) p = true ->
  fst (call (Steg.Decode e src p p) w) = Some (EmptyString, None) /\
  fst (call (Legacy.Decode e src p p) w) =
    Some (EmptyString, Some (errors_New "start point does not precede end point")).
Proof.
  intros Hsrc Hfile Hin. split.
  - unfold Steg.Decode. rewrite before_reflexive. simpl.
    run_io. rewrite Hsrc. simpl. rewrite Hfile. simpl. rewrite Hin. simpl.
    destruct (scan_breaks_at_start (Bounds img) (Steg.decode_pixel e img p p) p
                (fun s => Steg.mkDec (Steg.d_tmp s) (uint_add (Steg.d_i s) 1) (Steg.d_msg s))
                (fun s => Steg.d_msg s = EmptyString))
      with (s := Steg.mkDec (repeat false 8) 0 EmptyString) as [s' [Hscan Hmsg]].
    + now apply inBounds_inside.
    + intros x y s Hxy. unfold Steg.decode_pixel.
      destruct (Z.ltb_spec x (X p)); [reflexivity |].
      destruct (Z.ltb_spec y (Y p)); [reflexivity | lia].
    + intros s. unfold Steg.decode_pixel.
      rewrite !Z.ltb_irrefl, !Z.eqb_refl. reflexivity.
    + intros s Hs. exact Hs.
    + reflexivity.
    + unfold Steg.decode_scan. rewrite Hscan. simpl. now rewrite Hmsg.
  - unfold Legacy.Decode.
    run_io. rewrite Hsrc. simpl. rewrite Hfile. simpl.
    now rewrite legacy_before_irreflexive.
Qed.

(** The pixel (7,4) of the 10-by-10 image. *)
Lemma Decode_start_equal_end_witness :
  fst (call (Steg.Decode zeroEncoder "src.png" (mkPoint 7 4) (mkPoint 7 4))
         (world_with (black rect10))) = Some (EmptyString, None) /\
  fst (call (Legacy.Decode zeroEncoder "src.png" (mkPoint 7 4) (mkPoint 7 4))
         (world_with (black rect10))) =
    Some (EmptyString, Some (errors_New "start point does not precede end point")).
Proof.
  apply (Decode_start_equal_end zeroEncoder "src.png" "src.png" (mkPoint 7 4) (black rect10)
           (world_with (black rect10))); reflexivity.
Defined.

(** X15: The older version has no zero-length check: for an empty message and a
    start inside an image at the origin with PNG dimensions, its [Encode]
    returns the start as the end with no error, and the file it writes
    holds the source image unchanged. *)
Theorem legacy_Encode_empty_message_copies
    (e : Encoder) (src dst msg srcA dstA : string) (start : Point)
    (img : image_RGBA) (W H : Z) (w : World) :
  len msg = 0 ->
  abs_path w src = Some srcA ->
  abs_path w dst = Some dstA ->
  files w srcA = Some (PNG (Image_RGBA img)) ->
  writable w dstA = true ->
  encodable w (Image_RGBA img) = true ->
  Rect img = mkRect (mkPoint 0 0) (mkPoint W H) ->
  0 < W < 2 ^ 31 -> 0 < H < 2 ^ 31 ->
  inBounds (Rect img) start = true ->
  exists w',
    call (Legacy.Encode e src dst msg start) w = (Some (start, None), w') /\
    files w' dstA = Some (PNG (Image_RGBA img)) /\
    forall q, q <> dstA -> files w' q = files w q.
Proof.
  intros Hlen Hsrc Hdst Hfile Hwr Henc Hrect HW HH Hstart.
  pose proof Hstart as Hin. apply inBounds_inside in Hin.
  assert (Hend : pointAtOffset (Rect img) start (int_mul (len msg) 8) = Some start).
  { rewrite Hlen. unfold inside in Hin. rewrite Hrect in Hin. simpl in Hin.
    change (int_mul 0 8) with 0.
    rewrite pointAtOffset_small by (try rewrite Hrect; simpl; lia).
    rewrite Hrect. simpl. rewrite Z.sub_0_r.
    rewrite Z.mod_0_l, Z.div_0_l by lia.
    destruct (Z.gtb_spec (X start + 0) W); [lia |].
    destruct start as [sx sy]. simpl. f_equal; f_equal; lia. }
  destruct (scan_breaks_at_start (Rect img)
              (Legacy.encode_pixel e msg start start (offsetFromMin (Rect img) start)) start
              (fun s => Legacy.mkEnc (Legacy.e_img s) (Legacy.e_tmp s)
                          (uint_add (Legacy.e_i s) 1))
              (fun s => Legacy.e_img s = img))
    with (s := Legacy.mkEnc img (repeat 0 8) 0) as [s' [Hscan Himg]].
  - exact Hin.
  - intros x y s Hxy. unfold Legacy.encode_pixel.
    destruct (Z.ltb_spec x (X start)); [reflexivity |].
    destruct (Z.ltb_spec y (Y start)); [reflexivity | lia].
  - intros s. unfold Legacy.encode_pixel.
    rewrite !Z.ltb_irrefl, !Z.eqb_refl. reflexivity.
  - intros s Hs. exact Hs.
  - reflexivity.
  - eexists. split; [| split].
    + unfold Legacy.Encode.
      run_io. rewrite Hsrc. simpl. rewrite Hdst. simpl. rewrite Hfile. simpl.
      unfold Bounds. rewrite Hend. simpl. rewrite Hstart. simpl.
      unfold Legacy.encode_scan, Bounds. rewrite Hscan. simpl.
      rewrite Hwr. simpl. rewrite Himg, Henc. simpl. reflexivity.
    + simpl. now rewrite String.eqb_refl.
    + intros q Hq. simpl.
      destruct (String.eqb_spec q dstA); [contradiction | reflexivity].
Qed.

(** The empty message from (2,0) on the 10-by-10 image. *)
Lemma legacy_Encode_empty_message_copies_witness :
  exists w',
    call (Legacy.Encode zeroEncoder "src.png" "dst.png" "" (mkPoint 2 0))
      (world_with (black rect10)) = (Some (mkPoint 2 0, None), w') /\
    files w' "dst.png" = Some (PNG (Image_RGBA (black rect10))) /\
    forall q, q <> "dst.png"%string -> files w' q = files (world_with (black rect10)) q.
Proof.
  apply (legacy_Encode_empty_message_copies zeroEncoder "src.png" "dst.png" "" "src.png"
           "dst.png" (mkPoint 2 0) (black rect10) 10 10 (world_with (black rect10)));
    try reflexivity; lia.
Defined.

(** ** The ordering check against the row-major order *)

(** X16: Both versions of [before] accept every pair of pixels of an image in
    which the first comes earlier in row-major order; they also accept a
    first point on a lower row and left of the second, which comes later in
    that order. *)
Theorem before_vs_row_major (r : Rectangle) (p1 p2 : Point) :
  inside r p1 -> inside r p2 ->
  (row_major_offset r p1 < row_major_offset r p2 ->
   Steg.before p1 p2 = true /\ Legacy.before p1 p2 = true) /\
  (Y p2 < Y p1 -> X p1 < X p2 ->
   row_major_offset r p2 < row_major_offset r p1 /\
   Steg.before p1 p2 = true /\ Legacy.before p1 p2 = true).
Proof.
  intros [Hx1 Hy1] [Hx2 Hy2]. unfold row_major_offset. split.
  - intros Hlt. split.
    + destruct (Steg.before p1 p2) eqn:Hb; [reflexivity |].
      apply before_false_iff in Hb. nia.
    + destruct (Legacy.before p1 p2) eqn:Hb; [reflexivity |].
      apply legacy_before_false_iff in Hb. nia.
  - intros Hy Hx. split; [nia |]. split.
    + destruct (Steg.before p1 p2) eqn:Hb; [reflexivity |].
      apply before_false_iff in Hb. lia.
    + destruct (Legacy.before p1 p2) eqn:Hb; [reflexivity |].
      apply legacy_before_false_iff in Hb. lia.
Qed.

(** (5,1) and (6,0) on the 10-by-10 rectangle. *)
Lemma before_vs_row_major_witness :
  (row_major_offset rect10 (mkPoint 5 1) < row_major_offset rect10 (mkPoint 6 0) ->
   Steg.before (mkPoint 5 1) (mkPoint 6 0) = true /\
   Legacy.before (mkPoint 5 1) (mkPoint 6 0) = true) /\
  (Y (mkPoint 6 0) < Y (mkPoint 5 1) -> X (mkPoint 5 1) < X (mkPoint 6 0) ->
   row_major_offset rect10 (mkPoint 6 0) < row_major_offset rect10 (mkPoint 5 1) /\
   Steg.before (mkPoint 5 1) (mkPoint 6 0) = true /\
   Legacy.before (mkPoint 5 1) (mkPoint 6 0) = true).
Proof.
  apply (before_vs_row_major rect10 (mkPoint 5 1) (mkPoint 6 0)); unfold inside; simpl; lia.
Defined.

(** ** Bit packing, the other way round *)

Lemma bits_of_bitsToByte (bits : list bool) :
  List.length bits = 8%nat ->
  is_byte (Steg.bitsToByte bits) /\ bits_of (Steg.bitsToByte bits) = bits.
Proof.
  intros Hbits. eight_cells bits.
  repeat match goal with v : bool |- _ => destruct v end;
    (split; [vm_compute; split; [discriminate | reflexivity] | vm_compute; reflexivity]).
Qed.

(** X17: [bitsToByte] yields a byte, and [byteToBits] of that byte gives the
    eight bits back: the two functions are a bijection between 8-cell
    buffers and bytes. *)
Theorem byteToBits_bitsToByte (tmp bits : list bool) :
  List.length tmp = 8%nat ->
  List.length bits = 8%nat ->
  is_byte (Steg.bitsToByte bits) /\
  Steg.byteToBits tmp (Steg.bitsToByte bits) = bits.
Proof.
  intros Htmp Hbits. destruct (bits_of_bitsToByte bits Hbits) as [Hbyte Hback].
  split; [exact Hbyte |]. now rewrite byteToBits_bits_of.
Qed.

(** The bits of 'H' over a buffer of ones. *)
Lemma byteToBits_bitsToByte_witness :
  is_byte (Steg.bitsToByte [false; true; false; false; true; false; false; false]) /\
  Steg.byteToBits (repeat true 8)
    (Steg.bitsToByte [false; true; false; false; true; false; false; false]) =
    [false; true; false; false; true; false; false; false].
Proof.
  apply (byteToBits_bitsToByte (repeat true 8)
           [false; true; false; false; true; false; false; false]); reflexivity.
Defined.

(** ** Where the bits of the message are *)

Lemma read_bit_testbit_all :
  forallb
    (fun r =>
       forallb (fun n => Bool.eqb (read_bit n (widen r)) (Z.testbit r n)) (range 0 8))
    (range 0 256) = true.
Proof. vm_compute. reflexivity. Qed.

(** The test of [Decode] reads bit [n] of the stored red sample. *)
Lemma read_bit_testbit (n r : Z) :
  is_byte r -> 0 <= n <= 7 -> read_bit n (widen r) = Z.testbit r n.
Proof.
  intros Hr Hn. pose proof read_bit_testbit_all as Hall.
  rewrite forallb_forall in Hall. specialize (Hall r (In_range r 0 256 Hr)).
  rewrite forallb_forall in Hall. specialize (Hall n (In_range n 0 8 ltac:(lia))).
  now apply Bool.eqb_prop.
Qed.

Lemma message_bit_testbit (msg : string) (t : Z) :
  message_bit msg t = Z.testbit (byte_at msg (t / 8)) (7 - t mod 8).
Proof.
  unfold message_bit. pose proof bits_of_msb_first_all as Hall.
  rewrite forallb_forall in Hall.
  specialize (Hall _ (In_range _ 0 256 (byte_at_is_byte msg (t / 8)))).
  rewrite forallb_forall in Hall.
  specialize (Hall (t mod 8) (In_range _ 0 8 (Z.mod_pos_bound t 8 ltac:(lia)))).
  now apply Bool.eqb_prop.
Qed.

(** X18: The layout of the payload, for a start on a byte boundary whose
    payload stays right of the start column: in the image [Encode] writes,
    bit [i] (counted from the most significant) of byte [k] of the message
    is the configured bit of the red sample of the pixel [8 * k + i] places
    after the start in row-major order. *)
Theorem Encode_layout
    (e : Encoder) (src dst msg srcA dstA : string) (start end_ : Point)
    (img : image_RGBA) (W H : Z) (w : World) :
  0 <= bit e <= 7 ->
  abs_path w src = Some srcA ->
  abs_path w dst = Some dstA ->
  files w srcA = Some (PNG (Image_RGBA img)) ->
  writable w dstA = true ->
  (forall p, encodable w p = true) ->
  Rect img = mkRect (mkPoint 0 0) (mkPoint W H) ->
  0 < W < 2 ^ 31 -> 0 < H < 2 ^ 31 ->
  well_formed img ->
  0 < len msg < 2 ^ 58 ->
  inBounds (Rect img) start = true ->
  (Y start * W + X start) mod 8 = 0 ->
  X start = 0 \/ X start + 8 * len msg < W ->
  pointAtOffset (Rect img) start (int_mul (len msg) 8) = Some end_ ->
  inBounds (Rect img) end_ = true ->
  exists w' img',
    call (Steg.Encode e src dst msg start) w = (Some (end_, None), w') /\
    files w' dstA = Some (PNG (Image_RGBA img')) /\
    forall k i, 0 <= k < len msg -> 0 <= i < 8 ->
      Z.testbit
        (R (At img' ((Y start * W + X start + (8 * k + i)) mod W)
                    ((Y start * W + X start + (8 * k + i)) / W)))
        (bit e) =
      Z.testbit (byte_at msg k) (7 - i).
Proof.
  intros Hbit Hsrc Hdst Hfile Hwr Henc Hrect HW HH Hwf Hlen Hstart Halign Hrow
    Hend Hin.
  destruct (aligned_encoding e src dst msg srcA dstA start end_ img W H w Hbit Hsrc Hdst
              Hfile Hwr Henc Hrect HW HH Hwf Hlen Hstart Halign Hrow Hend Hin)
    as [w' [img' [Hcall [Hf [Hwf' [Hcar [Hunt Hdec]]]]]]].
  exists w', img'. split; [exact Hcall | split; [exact Hf |]].
  intros k i Hk Hi.
  specialize (Hcar (8 * k + i) ltac:(lia)).
  unfold hidden_bit in Hcar.
  rewrite read_bit_testbit in Hcar by (try apply At_is_color; try exact Hwf'; lia).
  rewrite Hcar, message_bit_testbit.
  replace ((8 * k + i) / 8) with k by (Z.div_mod_to_equations; lia).
  replace ((8 * k + i) mod 8) with i by (Z.div_mod_to_equations; lia).
  reflexivity.
Qed.

(** "Hi" from (0,4) of the 10-by-10 image, in bit 3. *)
Lemma Encode_layout_witness :
  exists w' img',
    call (Steg.Encode (mkEncoder 3) "src.png" "dst.png" "Hi" (mkPoint 0 4))
      (world_with (black rect10)) = (Some (mkPoint 6 5, None), w') /\
    files w' "dst.png" = Some (PNG (Image_RGBA img')) /\
    forall k i, 0 <= k < len "Hi" -> 0 <= i < 8 ->
      Z.testbit
        (R (At img' ((Y (mkPoint 0 4) * 10 + X (mkPoint 0 4) + (8 * k + i)) mod 10)
                    ((Y (mkPoint 0 4) * 10 + X (mkPoint 0 4) + (8 * k + i)) / 10)))
        (bit (mkEncoder 3)) =
      Z.testbit (byte_at "Hi" k) (7 - i).
Proof.
  apply (Encode_layout (mkEncoder 3) "src.png" "dst.png" "Hi" "src.png" "dst.png"
           (mkPoint 0 4) (mkPoint 6 5) (black rect10) 10 10 (world_with (black rect10))).
  - simpl. lia.
  - reflexivity.
  - reflexivity.
  - reflexivity.
  - reflexivity.
  - intros p. reflexivity.
  - reflexivity.
  - lia.
  - lia.
  - intros x y. unfold is_color, is_byte. simpl. lia.
  - unfold len. simpl. lia.
  - reflexivity.
  - reflexivity.
  - left. reflexivity.
  - reflexivity.
  - reflexivity.
Defined.

(** ** Round trip of arbitrary bytes *)

(** X19: For the same starts and any bytes: [Decode] over the start and the
    returned end gives back the message with every byte replaced by the
    UTF-8 encoding of its value, which is the message itself exactly when
    all its bytes are below 0x80. *)
Theorem Encode_then_Decode_recodes
    (e : Encoder) (src dst msg srcA dstA : string) (start end_ : Point)
    (img : image_RGBA) (W H : Z) (w : World) :
  0 <= bit e <= 7 ->
  abs_path w src = Some srcA ->
  abs_path w dst = Some dstA ->
  files w srcA = Some (PNG (Image_RGBA img)) ->
  writable w dstA = true ->
  (forall p, encodable w p = true) ->
  Rect img = mkRect (mkPoint 0 0) (mkPoint W H) ->
  0 < W < 2 ^ 31 -> 0 < H < 2 ^ 31 ->
  well_formed img ->
  0 < len msg < 2 ^ 58 ->
  inBounds (Rect img) start = true ->
  (Y start * W + X start) mod 8 = 0 ->
  X start = 0 \/ X start + 8 * len msg < W ->
  pointAtOffset (Rect img) start (int_mul (len msg) 8) = Some end_ ->
  inBounds (Rect img) end_ = true ->
  exists w',
    call (Steg.Encode e src dst msg start) w = (Some (end_, None), w') /\
    fst (call (Steg.Decode e dst start end_) w') = Some (recode msg, None) /\
    (recode msg = msg <-> ascii_only msg = true).
Proof.
  intros Hbit Hsrc Hdst Hfile Hwr Henc Hrect HW HH Hwf Hlen Hstart Halign Hrow
    Hend Hin.
  destruct (aligned_encoding e src dst msg srcA dstA start end_ img W H w Hbit Hsrc Hdst
              Hfile Hwr Henc Hrect HW HH Hwf Hlen Hstart Halign Hrow Hend Hin)
    as [w' [img' [Hcall [Hf [Hwf' [Hcar [Hunt Hdec]]]]]]].
  exists w'. split; [exact Hcall | split; [exact Hdec |]].
  split.
  - intros Hsame. apply recode_same_length. now rewrite Hsame.
  - apply recode_ascii_only.
Qed.

(** The one byte 0xE9 from the origin of the 10-by-10 image comes back as
    the two bytes 0xC3 0xA9. *)
Lemma Encode_then_Decode_recodes_witness :
  exists w',
    call (Steg.Encode zeroEncoder "src.png" "dst.png" (String (ascii_of_byte 233) EmptyString)
            (mkPoint 0 0))
      (world_with (black rect10)) = (Some (mkPoint 8 0, None), w') /\
    fst (call (Steg.Decode zeroEncoder "dst.png" (mkPoint 0 0) (mkPoint 8 0)) w') =
      Some (recode (String (ascii_of_byte 233) EmptyString), None) /\
    (recode (String (ascii_of_byte 233) EmptyString) = String (ascii_of_byte 233) EmptyString <->
     ascii_only (String (ascii_of_byte 233) EmptyString) = true).
Proof.
  apply (Encode_then_Decode_recodes zeroEncoder "src.png" "dst.png"
           (String (ascii_of_byte 233) EmptyString) "src.png" "dst.png"
           (mkPoint 0 0) (mkPoint 8 0) (black rect10) 10 10 (world_with (black rect10))).
  - simpl. lia.
  - reflexivity.
  - reflexivity.
  - reflexivity.
  - reflexivity.
  - intros p. reflexivity.
  - reflexivity.
  - lia.
  - lia.
  - intros x y. unfold is_color, is_byte. simpl. lia.
  - unfold len. simpl. lia.
  - reflexivity.
  - reflexivity.
  - left. reflexivity.
  - reflexivity.
  - reflexivity.
Defined.

(** ** An end the scan skips *)

Lemma for_each_no_break {S : Type} (body : Z -> S -> ctl S) (xs : list Z) (s : S) :
  (forall x s s', body x s <> Break s') -> forall s', for_each body xs s <> Break s'.
Proof.
  intros Hbody. revert s. induction xs as [| x xs IH]; intros s s'; simpl; [discriminate |].
  destruct (body x s) as [s1 | s1 |] eqn:Hstep; [apply IH | | discriminate].
  now destruct (Hbody x s s1).
Qed.

(** X20: The test that skips the pixels before the start also skips the end
    pixel when the end lies left of the start column or above the start
    row: the loops of [Encode] are then never left at the end, and
    [Decode] reads on to the last pixel of the image. *)
Theorem scan_never_reaches_skipped_end
    (e : Encoder) (img : image_RGBA) (msg : string) (start end_ : Point) :
  X end_ < X start \/ Y end_ < Y start ->
  (forall s, Steg.encode_scan e img msg start end_ <> Break s) /\
  (exists s, Steg.decode_scan e img start end_ = Continue s).
Proof.
  intros Hskip. split.
  - intros s. unfold Steg.encode_scan, scan. apply for_each_no_break. intros y s0 s0'.
    apply for_each_no_break. intros x s1 s1'. unfold Steg.encode_pixel.
    destruct (Z.ltb_spec x (X start)); [discriminate |].
    destruct (Z.ltb_spec y (Y start)); [discriminate |]. simpl.
    destruct (Z.eqb_spec x (X end_)); [| simpl].
    + destruct (Z.eqb_spec y (Y end_)); [lia | simpl].
      destruct (if Steg.e_i s1 mod 8 =? 0 then _ else _); [| discriminate].
      unfold RGBA_RGBA. discriminate.
    + destruct (if Steg.e_i s1 mod 8 =? 0 then _ else _); [| discriminate].
      unfold RGBA_RGBA. discriminate.
  - pose proof (decode_scan_no_panic e img start end_) as Hpanic.
    assert (Hbreak : forall s, Steg.decode_scan e img start end_ <> Break s).
    { intros s. unfold Steg.decode_scan, scan. apply for_each_no_break. intros y s0 s0'.
      apply for_each_no_break. intros x s1 s1'. unfold Steg.decode_pixel.
      destruct (Z.ltb_spec x (X start)); [discriminate |].
      destruct (Z.ltb_spec y (Y start)); [discriminate |]. simpl.
      destruct (Z.eqb_spec x (X end_)); [| simpl; unfold RGBA_RGBA; discriminate].
      destruct (Z.eqb_spec y (Y end_)); [lia | simpl; unfold RGBA_RGBA; discriminate]. }
    destruct (Steg.decode_scan e img start end_) as [s | s |].
    + now exists s.
    + now destruct (Hbreak s).
    + contradiction.
Qed.

(** "Hi" from (8,0) on the 10-by-10 image, whose end is (4,2). *)
Lemma scan_never_reaches_skipped_end_witness :
  (forall s, Steg.encode_scan zeroEncoder (black rect10) "Hi" (mkPoint 8 0) (mkPoint 4 2)
             <> Break s) /\
  (exists s, Steg.decode_scan zeroEncoder (black rect10) (mkPoint 8 0) (mkPoint 4 2)
             = Continue s).
Proof.
  apply (scan_never_reaches_skipped_end zeroEncoder (black rect10) "Hi" (mkPoint 8 0)
           (mkPoint 4 2)).
  left. simpl. lia.
Defined.

(** ** Errors of [Decode] and [Encode] *)

(** X21: [Decode] on coordinates that pass the ordering check but are not both
    pixels of the image: the error names the start first, the message
    returned is empty and nothing but the load of the image has happened. *)
Theorem Decode_rejects_out_of_bounds
    (e : Encoder) (src srcA : string) (start end_ : Point) (img : image_RGBA) (w : World) :
  Steg.before start end_ = true ->
  abs_path w src = Some srcA ->
  files w srcA = Some (PNG (Image_RGBA img)) ->
  ~ inside (Bounds img) start \/ ~ inside (Bounds img) end_ ->
  exists err,
    call (Steg.Decode e src start end_) w =
      (Some (EmptyString, Some err),
       set_heap (Some img) (log io_Decode (log (io_Open srcA) (log (io_Abs src) w)))) /\
    (~ inside (Bounds img) start -> err = errors_New "start point out of bounds") /\
    (inside (Bounds img) start -> err = errors_New "end point out of bounds").
Proof.
  intros Hbefore Hsrc Hfile Hout.
  exists (errors_New (if inBounds (Bounds img) start
                      then "end point out of bounds"
                      else "start point out of bounds")).
  split; [| split].
  - unfold Steg.Decode. rewrite Hbefore. simpl.
    run_io. rewrite Hsrc. simpl. rewrite Hfile. simpl.
    destruct (inBounds (Bounds img) start) eqn:Hs; simpl; [| reflexivity].
    destruct (inBounds (Bounds img) end_) eqn:He; simpl; [| reflexivity].
    apply inBounds_inside in Hs, He. tauto.
  - intros Hs. destruct (inBounds (Bounds img) start) eqn:Hin; [| reflexivity].
    apply inBounds_inside in Hin. contradiction.
  - intros Hs. apply inBounds_inside in Hs. now rewrite Hs.
Qed.

(** An end in column 10 of the 10-by-10 image, as [Encode] can return it. *)
Lemma Decode_rejects_out_of_bounds_witness :
  exists err,
    call (Steg.Decode zeroEncoder "src.png" (mkPoint 2 0) (mkPoint 10 0))
      (world_with (black rect10)) =
      (Some (EmptyString, Some err),
       set_heap (Some (black rect10))
         (log io_Decode (log (io_Open "src.png") (log (io_Abs "src.png")
                                                    (world_with (black rect10)))))) /\
    (~ inside (Bounds (black rect10)) (mkPoint 2 0) ->
     err = errors_New "start point out of bounds") /\
    (inside (Bounds (black rect10)) (mkPoint 2 0) ->
     err = errors_New "end point out of bounds").
Proof.
  apply (Decode_rejects_out_of_bounds zeroEncoder "src.png" "src.png" (mkPoint 2 0)
           (mkPoint 10 0) (black rect10) (world_with (black rect10))).
  - reflexivity.
  - reflexivity.
  - reflexivity.
  - right. unfold inside. simpl. lia.
Defined.


